(** * Flower task broker: task validity, authentication interceptor, driver client

    A shallow embedding of three modules of the repository:
    - [flwr/server/state/state.py]        ([is_valid_task], the abstract [State]),
    - [flwr/server/server_interceptor.py] ([AuthenticateServerInterceptor]),
    - [flwr/driver/driver.py]             ([Driver]).

    together with the base64 functions of the Python library the
    interceptor calls, and the task store the abstract [State] stands for.

    Python [bytes] are lists of [byte], Python [str] is [string], protobuf
    [sint64] fields are [Z].  Code that raises is modelled with an explicit
    exception type; code that acts on the gRPC context or on a lock is
    modelled by a small state-and-exception monad over a trace of effects. *)

From Stdlib Require Import ZArith NArith Lia Bool.
From Stdlib Require Import Strings.Byte.
From stdpp Require Import base option list strings countable gmap.

Local Open Scope Z_scope.

#[local] Set Warnings "-clear-no-such-hyp".

(** ** Python [bytes] *)

Abbreviation bytes := (list byte).

#[global] Instance byte_eq_dec : EqDecision byte.
Proof.
  intros x y. destruct (Byte.eqb x y) eqn:E.
  - left. now apply Byte.byte_dec_bl.
  - right. now apply Byte.eqb_false.
Defined.

#[global] Program Instance byte_countable : Countable byte :=
  inj_countable Byte.to_N Byte.of_N _.
Next Obligation. intros x. apply Byte.of_to_N. Qed.

(** [str.encode()]: the UTF-8 bytes of the text.  A [string] already is the
    sequence of its UTF-8 bytes. *)
Definition encode (s : string) : bytes := String.list_byte_of_string s.

(** ** [flwr/server/state/state.py] *)

Module State.

(** [flwr.proto.node_pb2.Node] *)
Record Node := mkNode { node_id : Z; anonymous : bool }.

(** [flwr.proto.task_pb2.Task].  [producer] is the one field the code asks
    [HasField] of, so its presence is explicit; [consumer] is only ever read,
    and reading an unset message field gives the default [Node], so it is a
    plain [Node]. *)
Record Task := mkTask {
  producer : option Node;
  consumer : Node;
  created_at : string;
  delivered_at : string;
  ttl : string;
  ancestry : list string;
  payload : bytes
}.

Record TaskIns := mkTaskIns {
  ins_task_id : string;
  ins_group_id : string;
  ins_run_id : Z;
  ins_task : Task
}.

Record TaskRes := mkTaskRes {
  res_task_id : string;
  res_group_id : string;
  res_run_id : Z;
  res_task : Task
}.

(** [Union[TaskIns, TaskRes]] *)
Inductive Message :=
| MsgTaskIns (m : TaskIns)
| MsgTaskRes (m : TaskRes).

Definition task (message : Message) : Task :=
  match message with
  | MsgTaskIns m => ins_task m
  | MsgTaskRes m => res_task m
  end.

(** [isinstance(message, TaskRes)] *)
Definition isinstance_TaskRes (message : Message) : bool :=
  match message with
  | MsgTaskIns _ => false
  | MsgTaskRes _ => true
  end.

(** [is_valid_task]: the chain of early [return False]s of the source, in
    order, ending in [return True]. *)
Definition is_valid_task (message : Message) : bool :=
  if anonymous (consumer (task message)) && negb (node_id (consumer (task message)) =? 0)
  then false
  else if negb (anonymous (consumer (task message))) && (node_id (consumer (task message)) =? 0)
  then false
  else if
    match producer (task message) with
    | Some p =>
        if anonymous p && negb (node_id p =? 0) then true
        else if negb (anonymous p) && (node_id p =? 0) then true
        else false
    | None => false
    end
  then false
  else if isinstance_TaskRes message && (length (ancestry (task message)) =? 0)%nat
  then false
  else true.

(** The anonymous/node_id coupling of the data model. *)
Definition coupled (n : Node) : Prop :=
  (anonymous n = true -> node_id n = 0) /\ (anonymous n = false -> node_id n <> 0).

Lemma coupled_spec (n : Node) :
  coupled n <->
  (anonymous n && negb (node_id n =? 0) = false /\
   negb (anonymous n) && (node_id n =? 0) = false).
Proof.
  unfold coupled. destruct (anonymous n); simpl;
    destruct (Z.eqb_spec (node_id n) 0); simpl; intuition congruence.
Qed.

Lemma is_valid_task_spec (message : Message) :
  is_valid_task message = true <->
  coupled (consumer (task message)) /\
  (forall p, producer (task message) = Some p -> coupled p) /\
  (isinstance_TaskRes message = true -> ancestry (task message) <> []).
Proof.
  unfold is_valid_task. rewrite coupled_spec.
  destruct (anonymous (consumer (task message)) && _) eqn:E1.
  { split; [discriminate | intros [[? _] _]; congruence]. }
  destruct (negb (anonymous (consumer (task message))) && _) eqn:E2.
  { split; [discriminate | intros [[_ ?] _]; congruence]. }
  destruct (producer (task message)) as [p|] eqn:Ep.
  - destruct (anonymous p && _) eqn:E3.
    { split; [discriminate|]. intros (_ & Hp & _).
      specialize (Hp p eq_refl). apply coupled_spec in Hp. destruct Hp. congruence. }
    destruct (negb (anonymous p) && _) eqn:E4.
    { split; [discriminate|]. intros (_ & Hp & _).
      specialize (Hp p eq_refl). apply coupled_spec in Hp. destruct Hp. congruence. }
    destruct (isinstance_TaskRes message); simpl.
    + destruct (ancestry (task message)); simpl.
      * split; [discriminate | intros (_ & _ & H); now contradiction H].
      * split; [|done]. intros _. split; [done|]. split; [|done].
        intros q [= <-]. now apply coupled_spec.
    + split; [|done]. intros _. split; [done|]. split; [|done].
      intros q [= <-]. now apply coupled_spec.
  - destruct (isinstance_TaskRes message); simpl.
    + destruct (ancestry (task message)); simpl.
      * split; [discriminate | intros (_ & _ & H); now contradiction H].
      * split; [|done]. intros _. split; [done|]. split; done.
    + split; [|done]. intros _. split; [done|]. split; done.
Qed.

(** C1: [is_valid_task] returns true exactly when the consumer satisfies the
    anonymous/node_id coupling, a present producer satisfies it too, and a
    TaskRes has a non-empty ancestry. *)
Theorem is_valid_task_iff (message : Message) :
  is_valid_task message = true <->
  ((anonymous (consumer (task message)) = true -> node_id (consumer (task message)) = 0) /\
   (anonymous (consumer (task message)) = false -> node_id (consumer (task message)) <> 0)) /\
  (forall p, producer (task message) = Some p ->
     (anonymous p = true -> node_id p = 0) /\ (anonymous p = false -> node_id p <> 0)) /\
  (isinstance_TaskRes message = true -> (length (ancestry (task message)) > 0)%nat).
Proof.
  rewrite is_valid_task_spec. unfold coupled.
  destruct (ancestry (task message)); simpl; intuition (try lia; try congruence).
Qed.





(** *** Further properties of [is_valid_task] *)




(** The same envelope sent as an instruction instead of a result. *)
Definition as_task_ins (m : TaskRes) : TaskIns :=
  mkTaskIns (res_task_id m) (res_group_id m) (res_run_id m) (res_task m).

Section Logging.

(** [google.protobuf.json_format.MessageToJson(message,
    including_default_value_fields)] is outside this module. *)
Variable MessageToJson : Message -> bool -> string.




End Logging.

(** X2: validity depends on nothing but the kind of message, the consumer,
    the producer and whether the ancestry is empty: identifiers, run,
    timestamps and payload are never looked at. *)
Theorem is_valid_task_ignores_other_fields (m1 m2 : Message) :
  isinstance_TaskRes m1 = isinstance_TaskRes m2 ->
  consumer (task m1) = consumer (task m2) ->
  producer (task m1) = producer (task m2) ->
  (ancestry (task m1) = [] <-> ancestry (task m2) = []) ->
  is_valid_task m1 = is_valid_task m2.
Proof.
  intros Hk Hc Hp Ha. unfold is_valid_task. rewrite Hk, Hc, Hp.
  replace (length (ancestry (task m1)) =? 0)%nat
    with (length (ancestry (task m2)) =? 0)%nat; [reflexivity|].
  destruct (ancestry (task m1)) as [|x l1], (ancestry (task m2)) as [|y l2];
    simpl; try reflexivity.
  - destruct Ha as [Ha _]. now specialize (Ha eq_refl).
  - destruct Ha as [_ Ha]. now specialize (Ha eq_refl).
Qed.

Definition ins_model_a : TaskIns :=
  mkTaskIns "a" "g" 1 (mkTask None (mkNode 7 false) "t0" "" "10" ["x"] []).

Definition ins_model_b : TaskIns :=
  mkTaskIns "b" "" 2 (mkTask None (mkNode 7 false) "" "t1" "" ["y"; "z"] [x01]).

Lemma is_valid_task_ignores_other_fields_witness :
  is_valid_task (MsgTaskIns ins_model_a) = is_valid_task (MsgTaskIns ins_model_b).
Proof.
  apply is_valid_task_ignores_other_fields; try reflexivity.
  simpl. split; discriminate.
Defined.

(** X3: a result is valid exactly when the same envelope is valid as an
    instruction and its ancestry is not empty. *)
Theorem is_valid_task_res_as_ins (m : TaskRes) :
  is_valid_task (MsgTaskRes m) =
  is_valid_task (MsgTaskIns (as_task_ins m))
  && negb (length (ancestry (res_task m)) =? 0)%nat.
Proof.
  unfold is_valid_task. simpl.
  destruct (anonymous (consumer (res_task m)) && _); [reflexivity|].
  destruct (negb (anonymous (consumer (res_task m))) && _); [reflexivity|].
  destruct (producer (res_task m)) as [p|].
  - destruct (anonymous p && _); [reflexivity|].
    destruct (negb (anonymous p) && _); [reflexivity|].
    destruct (length (ancestry (res_task m)) =? 0)%nat; reflexivity.
  - destruct (length (ancestry (res_task m)) =? 0)%nat; reflexivity.
Qed.

(** X16: a message whose consumer was never set, or whose producer is
    present but empty, reads as the default [Node] (identifier 0, not
    anonymous) and is rejected. *)
Theorem unset_node_rejected (message : Message) :
  consumer (task message) = mkNode 0 false \/
  producer (task message) = Some (mkNode 0 false) ->
  is_valid_task message = false.
Proof.
  intros H. unfold is_valid_task.
  destruct (anonymous (consumer (task message)) && _); [reflexivity|].
  destruct H as [->| ->]; [reflexivity|].
  destruct (negb (anonymous (consumer (task message))) && _); reflexivity.
Qed.

Lemma unset_node_rejected_witness :
  is_valid_task (MsgTaskIns (mkTaskIns "" "" 0 (mkTask None (mkNode 0 false) "" "" "" [] [])))
  = false.
Proof. apply unset_node_rejected. left. reflexivity. Defined.

End State.

(** ** Python's [base64.urlsafe_b64encode] / [base64.urlsafe_b64decode]

    Standard-library functions the interceptor calls on header values.
    [urlsafe_b64decode s] is [binascii.a2b_base64] (not strict) applied to
    [s] with ['-'] and ['_'] translated to ['+'] and ['/']; it raises
    [binascii.Error] (here [None]) when the data characters do not fill
    whole quads. *)

Module Base64.

Local Open Scope N_scope.

Definition byte_of_N (n : N) : byte :=
  match Byte.of_N (n mod 256) with
  | Some b => b
  | None => x00
  end.

(** [bytes.translate] with the two-character url-safe tables. *)
Definition _urlsafe_decode_translation (c : byte) : byte :=
  match c with
  | x2d => x2b   (* '-' to '+' *)
  | x5f => x2f   (* '_' to '/' *)
  | _ => c
  end.

Definition _urlsafe_encode_translation (c : byte) : byte :=
  match c with
  | x2b => x2d   (* '+' to '-' *)
  | x2f => x5f   (* '/' to '_' *)
  | _ => c
  end.

Definition BASE64_PAD : byte := x3d.

(** [table_a2b_base64]: the 6-bit value of a character of the standard
    alphabet, [None] for every other byte. *)
Definition table_a2b_base64 (c : byte) : option N :=
  let n := Byte.to_N c in
  if (65 <=? n) && (n <=? 90) then Some (n - 65)
  else if (97 <=? n) && (n <=? 122) then Some (n - 71)
  else if (48 <=? n) && (n <=? 57) then Some (n + 4)
  else if n =? 43 then Some 62
  else if n =? 47 then Some 63
  else None.

(** [table_b2a_base64] *)
Definition table_b2a_base64 (v : N) : byte :=
  if v <? 26 then byte_of_N (v + 65)
  else if v <? 52 then byte_of_N (v + 71)
  else if v <? 62 then byte_of_N (v - 4)
  else if v =? 62 then x2b
  else x2f.

(** The decoding loop of [binascii.a2b_base64] with [strict_mode] off:
    [quad_pos] counts the data characters of the current quad, [leftchar]
    holds the bits not yet written, [pads] the ['='] seen in a row.  Enough
    padding after two or three data characters ends the decoding at once;
    other padding and the bytes outside the alphabet are skipped.  At the
    end of the input an unfinished quad is an error. *)
Fixpoint a2b_loop (ascii_data : bytes) (quad_pos : nat) (leftchar : N)
    (pads : nat) (bin_data : bytes) : option bytes :=
  match ascii_data with
  | [] => if (quad_pos =? 0)%nat then Some bin_data else None
  | this_ch :: rest =>
      if bool_decide (this_ch = BASE64_PAD) then
        if (2 <=? quad_pos)%nat then
          if (4 <=? quad_pos + (pads + 1))%nat then Some bin_data
          else a2b_loop rest quad_pos leftchar (pads + 1)%nat bin_data
        else a2b_loop rest quad_pos leftchar pads bin_data
      else
        match table_a2b_base64 this_ch with
        | None => a2b_loop rest quad_pos leftchar pads bin_data
        | Some v =>
            match quad_pos with
            | 0%nat => a2b_loop rest 1%nat v 0%nat bin_data
            | 1%nat =>
                a2b_loop rest 2%nat (N.land v 15) 0%nat
                  (bin_data ++ [byte_of_N (N.lor (N.shiftl leftchar 2) (N.shiftr v 4))])
            | 2%nat =>
                a2b_loop rest 3%nat (N.land v 3) 0%nat
                  (bin_data ++ [byte_of_N (N.lor (N.shiftl leftchar 4) (N.shiftr v 2))])
            | _ =>
                a2b_loop rest 0%nat 0 0%nat
                  (bin_data ++ [byte_of_N (N.lor (N.shiftl leftchar 6) v)])
            end
        end
  end.

Definition a2b_base64 (data : bytes) : option bytes := a2b_loop data 0%nat 0 0%nat [].

Definition urlsafe_b64decode (s : bytes) : option bytes :=
  a2b_base64 (map _urlsafe_decode_translation s).

(** [binascii.b2a_base64] without the trailing newline: three bytes give
    four characters, a last group of one or two bytes is padded. *)
Fixpoint b2a_base64 (data : bytes) : bytes :=
  match data with
  | [] => []
  | [a] =>
      let a := Byte.to_N a in
      [table_b2a_base64 (N.shiftr a 2);
       table_b2a_base64 (N.shiftl (N.land a 3) 4);
       BASE64_PAD; BASE64_PAD]
  | [a; b] =>
      let a := Byte.to_N a in
      let b := Byte.to_N b in
      [table_b2a_base64 (N.shiftr a 2);
       table_b2a_base64 (N.lor (N.shiftl (N.land a 3) 4) (N.shiftr b 4));
       table_b2a_base64 (N.shiftl (N.land b 15) 2);
       BASE64_PAD]
  | a :: b :: c :: rest =>
      let a := Byte.to_N a in
      let b := Byte.to_N b in
      let c := Byte.to_N c in
      table_b2a_base64 (N.shiftr a 2)
      :: table_b2a_base64 (N.lor (N.shiftl (N.land a 3) 4) (N.shiftr b 4))
      :: table_b2a_base64 (N.lor (N.shiftl (N.land b 15) 2) (N.shiftr c 6))
      :: table_b2a_base64 (N.land c 63)
      :: b2a_base64 rest
  end.

Definition urlsafe_b64encode (s : bytes) : bytes :=
  map _urlsafe_encode_translation (b2a_base64 s).

Example urlsafe_b64decode_empty : urlsafe_b64decode [] = Some [].
Proof. reflexivity. Qed.

(** ["a"]: one data character, not a whole quad. *)
Example urlsafe_b64decode_one_char : urlsafe_b64decode (encode "a") = None.
Proof. reflexivity. Qed.

Example urlsafe_b64encode_hello :
  urlsafe_b64encode (encode "hello?>") = encode "aGVsbG8_Pg==".
Proof. reflexivity. Qed.

Example urlsafe_b64decode_hello :
  urlsafe_b64decode (encode "aGVsbG8_Pg==") = Some (encode "hello?>").
Proof. reflexivity. Qed.


(** *** Decoding inverts encoding *)

Definition below (n : nat) : list N := map N.of_nat (seq 0 n).

Lemma elem_of_below (n : nat) (v : N) : (N.to_nat v < n)%nat -> In v (below n).
Proof.
  intros Hv. unfold below. apply in_map_iff. exists (N.to_nat v).
  split; [apply N2Nat.id|]. apply in_seq. lia.
Qed.

Lemma check_below (n : nat) (P : N -> bool) :
  forallb P (below n) = true -> forall v, (N.to_nat v < n)%nat -> P v = true.
Proof.
  intros H v Hv. rewrite forallb_forall in H. apply H. now apply elem_of_below.
Qed.

Lemma check_below2 (n m : nat) (P : N -> N -> bool) :
  forallb (fun a => forallb (P a) (below m)) (below n) = true ->
  forall a b, (N.to_nat a < n)%nat -> (N.to_nat b < m)%nat -> P a b = true.
Proof.
  intros H a b Ha Hb.
  apply (check_below m (P a)); [|done].
  now apply (check_below n (fun a => forallb (P a) (below m))).
Qed.

Lemma to_N_lt (b : byte) : Byte.to_N b < 256.
Proof. pose proof (Byte.to_N_bounded b). lia. Qed.

Lemma byte_of_to_N (b : byte) : byte_of_N (Byte.to_N b) = b.
Proof.
  unfold byte_of_N. rewrite N.mod_small by apply to_N_lt. now rewrite Byte.of_to_N.
Qed.

(** The characters the encoder writes survive the two translations, are
    not the padding character, and map back to their 6-bit value. *)
Definition sextet_ok (v : N) : bool :=
  Byte.eqb
    (_urlsafe_decode_translation (_urlsafe_encode_translation (table_b2a_base64 v)))
    (table_b2a_base64 v)
  && negb (Byte.eqb (table_b2a_base64 v) BASE64_PAD)
  && match table_a2b_base64 (table_b2a_base64 v) with
     | Some w => w =? v
     | None => false
     end.

Lemma sextet_ok_all v : v < 64 -> sextet_ok v = true.
Proof.
  intros Hv. apply (check_below 64 sextet_ok); [vm_compute; reflexivity | lia].
Qed.

Lemma a2b_loop_cons this_ch rest quad_pos leftchar pads bin_data :
  a2b_loop (this_ch :: rest) quad_pos leftchar pads bin_data =
  if bool_decide (this_ch = BASE64_PAD) then
    if (2 <=? quad_pos)%nat then
      if (4 <=? quad_pos + (pads + 1))%nat then Some bin_data
      else a2b_loop rest quad_pos leftchar (pads + 1)%nat bin_data
    else a2b_loop rest quad_pos leftchar pads bin_data
  else
    match table_a2b_base64 this_ch with
    | None => a2b_loop rest quad_pos leftchar pads bin_data
    | Some v =>
        match quad_pos with
        | 0%nat => a2b_loop rest 1%nat v 0%nat bin_data
        | 1%nat =>
            a2b_loop rest 2%nat (N.land v 15) 0%nat
              (bin_data ++ [byte_of_N (N.lor (N.shiftl leftchar 2) (N.shiftr v 4))])
        | 2%nat =>
            a2b_loop rest 3%nat (N.land v 3) 0%nat
              (bin_data ++ [byte_of_N (N.lor (N.shiftl leftchar 4) (N.shiftr v 2))])
        | _ =>
            a2b_loop rest 0%nat 0 0%nat
              (bin_data ++ [byte_of_N (N.lor (N.shiftl leftchar 6) v)])
        end
    end.
Proof. reflexivity. Qed.

Lemma sextet_facts v :
  v < 64 ->
  _urlsafe_decode_translation (_urlsafe_encode_translation (table_b2a_base64 v))
    = table_b2a_base64 v /\
  table_b2a_base64 v <> BASE64_PAD /\
  table_a2b_base64 (table_b2a_base64 v) = Some v.
Proof.
  intros Hv. pose proof (sextet_ok_all v Hv) as Hok.
  apply andb_prop in Hok as [Hok H3]. apply andb_prop in Hok as [H1 H2].
  split; [now apply Byte.byte_dec_bl|]. split.
  - apply Byte.eqb_false. now apply negb_true_iff.
  - destruct (table_a2b_base64 (table_b2a_base64 v)) as [w|]; [|discriminate].
    apply N.eqb_eq in H3. now subst.
Qed.

Lemma a2b_loop_data this_ch v rest quad_pos leftchar pads bin_data :
  this_ch <> BASE64_PAD ->
  table_a2b_base64 this_ch = Some v ->
  a2b_loop (this_ch :: rest) quad_pos leftchar pads bin_data =
  match quad_pos with
  | 0%nat => a2b_loop rest 1%nat v 0%nat bin_data
  | 1%nat =>
      a2b_loop rest 2%nat (N.land v 15) 0%nat
        (bin_data ++ [byte_of_N (N.lor (N.shiftl leftchar 2) (N.shiftr v 4))])
  | 2%nat =>
      a2b_loop rest 3%nat (N.land v 3) 0%nat
        (bin_data ++ [byte_of_N (N.lor (N.shiftl leftchar 4) (N.shiftr v 2))])
  | _ =>
      a2b_loop rest 0%nat 0 0%nat
        (bin_data ++ [byte_of_N (N.lor (N.shiftl leftchar 6) v)])
  end.
Proof.
  intros Hpad Hv. rewrite a2b_loop_cons, (bool_decide_eq_false_2 _ Hpad), Hv.
  reflexivity.
Qed.

Lemma a2b_loop_sextet v rest quad_pos leftchar pads bin_data :
  v < 64 ->
  a2b_loop (_urlsafe_decode_translation
              (_urlsafe_encode_translation (table_b2a_base64 v)) :: rest)
    quad_pos leftchar pads bin_data =
  match quad_pos with
  | 0%nat => a2b_loop rest 1%nat v 0%nat bin_data
  | 1%nat =>
      a2b_loop rest 2%nat (N.land v 15) 0%nat
        (bin_data ++ [byte_of_N (N.lor (N.shiftl leftchar 2) (N.shiftr v 4))])
  | 2%nat =>
      a2b_loop rest 3%nat (N.land v 3) 0%nat
        (bin_data ++ [byte_of_N (N.lor (N.shiftl leftchar 4) (N.shiftr v 2))])
  | _ =>
      a2b_loop rest 0%nat 0 0%nat
        (bin_data ++ [byte_of_N (N.lor (N.shiftl leftchar 6) v)])
  end.
Proof.
  intros Hv. destruct (sextet_facts v Hv) as (E1 & E2 & E3).
  rewrite E1. now apply a2b_loop_data.
Qed.

(** The bit arithmetic of one group, checked on all byte values. *)
Definition byte_ok (a : N) : bool :=
  (N.shiftr a 2 <? 64)
  && (N.shiftl (N.land a 3) 4 <? 64)
  && (N.shiftl (N.land a 15) 2 <? 64)
  && (N.land a 63 <? 64)
  && (N.lor (N.shiftl (N.shiftr a 2) 2) (N.shiftr (N.shiftl (N.land a 3) 4) 4) =? a)
  && (N.shiftr (N.shiftl (N.land a 15) 2) 2 =? N.land a 15)
  && (N.lor (N.shiftl (N.shiftr a 4) 4) (N.land a 15) =? a)
  && (N.lor (N.shiftl (N.shiftr a 6) 6) (N.land a 63) =? a).

Definition pair_ok (a b : N) : bool :=
  (N.lor (N.shiftl (N.land a 3) 4) (N.shiftr b 4) <? 64)
  && (N.lor (N.shiftl (N.land a 15) 2) (N.shiftr b 6) <? 64)
  && (N.lor (N.shiftl (N.shiftr a 2) 2)
        (N.shiftr (N.lor (N.shiftl (N.land a 3) 4) (N.shiftr b 4)) 4) =? a)
  && (N.land (N.lor (N.shiftl (N.land a 3) 4) (N.shiftr b 4)) 15 =? N.shiftr b 4)
  && (N.shiftr (N.lor (N.shiftl (N.land a 15) 2) (N.shiftr b 6)) 2 =? N.land a 15)
  && (N.land (N.lor (N.shiftl (N.land a 15) 2) (N.shiftr b 6)) 3 =? N.shiftr b 6).

Lemma byte_ok_all a : a < 256 -> byte_ok a = true.
Proof.
  intros Ha. apply (check_below 256 byte_ok); [vm_compute; reflexivity | lia].
Qed.

Lemma pair_ok_all a b : a < 256 -> b < 256 -> pair_ok a b = true.
Proof.
  intros Ha Hb.
  apply (check_below2 256 256 pair_ok); [vm_compute; reflexivity | lia | lia].
Qed.

Ltac split_checks H :=
  repeat (let H' := fresh "Hc" in apply andb_true_iff in H as [H H']);
  repeat match goal with
         | Hc : (_ <? _) = true |- _ => apply N.ltb_lt in Hc
         | Hc : (_ =? _) = true |- _ => apply N.eqb_eq in Hc
         end.

Lemma list_ind3 {A} (P : list A -> Prop) :
  P [] -> (forall a, P [a]) -> (forall a b, P [a; b]) ->
  (forall a b c l, P l -> P (a :: b :: c :: l)) ->
  forall l, P l.
Proof.
  intros H0 H1 H2 H3 l.
  assert (H : forall n l, (length l <= n)%nat -> P l).
  { clear l. induction n as [|n IH]; intros l Hl.
    - destruct l; [done|simpl in Hl; lia].
    - destruct l as [|a [|b [|c l]]]; auto.
      apply H3, IH. simpl in Hl. lia. }
  apply (H (length l)). lia.
Qed.

Ltac byte_facts a :=
  let H := fresh "H" in
  pose proof (byte_ok_all _ (to_N_lt a)) as H; unfold byte_ok in H; split_checks H.

Ltac pair_facts a b :=
  let H := fresh "H" in
  pose proof (pair_ok_all _ _ (to_N_lt a) (to_N_lt b)) as H; unfold pair_ok in H;
  split_checks H.

Ltac close_group :=
  repeat match goal with
         | H : ?l = _ |- context [?l] => rewrite H
         end;
  rewrite ?byte_of_to_N, <- ?app_assoc; reflexivity.

Lemma a2b_loop_b2a s : forall bin_data,
  a2b_loop (map _urlsafe_decode_translation
              (map _urlsafe_encode_translation (b2a_base64 s)))
    0%nat 0 0%nat bin_data = Some (bin_data ++ s).
Proof.
  induction s as [|a|a b|a b c s IH] using list_ind3; intros bin_data.
  - simpl. now rewrite app_nil_r.
  - byte_facts a. cbn [b2a_base64 map].
    rewrite !a2b_loop_sextet by done. simpl. close_group.
  - byte_facts a. byte_facts b. pair_facts a b. cbn [b2a_base64 map].
    rewrite !a2b_loop_sextet by done. simpl. close_group.
  - byte_facts a. byte_facts b. byte_facts c. pair_facts a b. pair_facts b c.
    cbn [b2a_base64 map].
    rewrite !a2b_loop_sextet by done. rewrite IH. close_group.
Qed.

(** Decoding an encoded byte string gives it back. *)
Lemma urlsafe_b64decode_encode s : urlsafe_b64decode (urlsafe_b64encode s) = Some s.
Proof. unfold urlsafe_b64decode, urlsafe_b64encode, a2b_base64. apply a2b_loop_b2a. Qed.

End Base64.

(** ** gRPC status codes ([grpc.StatusCode]) *)

Module Grpc.

Inductive StatusCode :=
| OK | CANCELLED | UNKNOWN | INVALID_ARGUMENT | DEADLINE_EXCEEDED | NOT_FOUND
| ALREADY_EXISTS | PERMISSION_DENIED | RESOURCE_EXHAUSTED | FAILED_PRECONDITION
| ABORTED | OUT_OF_RANGE | UNIMPLEMENTED | INTERNAL | UNAVAILABLE | DATA_LOSS
| UNAUTHENTICATED.

#[global] Instance StatusCode_eq_dec : EqDecision StatusCode.
Proof. solve_decision. Defined.

End Grpc.

(** ** [flwr/server/server_interceptor.py] *)

Module Interceptor.

Import Grpc.

Definition _PUBLIC_KEY_HEADER : string := "public-key".
Definition _AUTH_TOKEN_HEADER : string := "auth-token".

(** A metadata value is [Union[str, bytes]]. *)
Inductive MetadataValue :=
| MStr (s : string)
| MBytes (b : bytes).

Abbreviation Metadata := (list (string * MetadataValue)).

(** [next((value for key, value in tuples if key == key_string), default)] *)
Fixpoint next_value (key_string : string) (tuples : Metadata)
    (default : MetadataValue) : MetadataValue :=
  match tuples with
  | [] => default
  | (key, value) :: rest =>
      if bool_decide (key = key_string) then value
      else next_value key_string rest default
  end.

Definition _get_value_from_tuples (key_string : string) (tuples : Metadata) : bytes :=
  let value := next_value key_string tuples (MStr "") in
  match value with
  | MStr s => encode s
  | MBytes b => b
  end.

(** The messages a handler can be called with: the four of the [Request]
    union, and any other message of the service. *)
Inductive Request :=
| CreateNodeRequest
| DeleteNodeRequest (node : State.Node)
| PullTaskInsRequest (node : State.Node) (task_ids : list string)
| PushTaskResRequest (task_res_list : list State.TaskRes)
| OtherRequest (raw : bytes).

(** Exceptions: the one [context.abort] raises to end the RPC,
    [binascii.Error] of the base64 decoder, and whatever a callee outside
    this module (crypto library, wrapped handler) raises. *)
Inductive exn :=
| AbortError (code : StatusCode) (details : string)
| BinasciiError
| LibraryError (name : string).

Inductive Result (A : Type) :=
| Ok (a : A)
| Raise (e : exn).
Arguments Ok {A} a.
Arguments Raise {A} e.

(** What a call does to the lock, the gRPC context and the wrapped handler,
    in order.  [HandlerExit] marks the end of the wrapped handler, by a
    return or by an exception of its own. *)
Inductive Event :=
| LockAcquire
| LockRelease
| SendInitialMetadata (initial_metadata : Metadata)
| ContextAbort (code : StatusCode) (details : string)
| HandlerEnter (request : Request)
| HandlerExit.

(** Computations that extend the trace and return or raise. *)
Definition M (A : Type) : Type := list Event -> Result A * list Event.

#[global] Instance M_ret : MRet M := fun A a tr => (Ok a, tr).

#[global] Instance M_bind : MBind M := fun A B f m tr =>
  match m tr with
  | (Ok a, tr') => f a tr'
  | (Raise e, tr') => (Raise e, tr')
  end.

Definition emit (e : Event) : M unit := fun tr => (Ok tt, tr ++ [e]).

Definition lift {A} (r : Result A) : M A := fun tr => (r, tr).

(** [with lock: body]: the lock is released when the block is left, by a
    return or by an exception. *)
Definition with_lock {A} (body : M A) : M A := fun tr =>
  let '(r, tr') := body (tr ++ [LockAcquire]) in (r, tr' ++ [LockRelease]).

(** [context.abort(code, details)] always raises. *)
Definition abort (code : StatusCode) (details : string) : M unit :=
  emit (ContextAbort code details);; lift (Raise (AbortError code details)).

Definition send_initial_metadata (initial_metadata : Metadata) : M unit :=
  emit (SendInitialMetadata initial_metadata).

Definition urlsafe_b64decode (s : bytes) : Result bytes :=
  match Base64.urlsafe_b64decode s with
  | Some b => Ok b
  | None => Raise BinasciiError
  end.

Section Handler.

(** The crypto helpers of [flwr.common.secure_aggregation.crypto.symmetric_encryption],
    the protobuf serializer and the wrapped handler are outside this module. *)
Context {PrivateKey PublicKey Response : Type}.
Variable bytes_to_public_key : bytes -> Result PublicKey.
Variable generate_shared_key : PrivateKey -> PublicKey -> Result bytes.
Variable public_key_to_bytes : PublicKey -> bytes.
Variable verify_hmac : bytes -> bytes -> bytes -> bool.
Variable SerializeToString : Request -> bool -> bytes.

Record AuthenticateServerInterceptor := mkInterceptor {
  server_private_key : PrivateKey;
  server_public_key : PublicKey;
  (** [self.state.get_client_public_keys()] *)
  client_public_keys : gset bytes
}.

(** Modelled from the spec: the state returned by [StateFactory.state()] is
    not in the sources; the key set handed to [store_client_public_keys] is
    the one [get_client_public_keys] returns on every call. *)
Definition store_client_public_keys (public_keys : gset bytes) : gset bytes :=
  public_keys.

(** [AuthenticateServerInterceptor.__init__]: keeps the server's keys and
    stores the client keys in the state; the lock starts free, as every
    trace does. *)
Definition __init__ (client_public_keys : gset bytes) (private_key : PrivateKey)
    (public_key : PublicKey) : AuthenticateServerInterceptor :=
  mkInterceptor private_key public_key (store_client_public_keys client_public_keys).

(** [message_handler.unary_unary(request, context)] *)
Definition unary_unary (message_handler : Request -> Result Response)
    (request : Request) : M Response :=
  emit (HandlerEnter request);;
  let response := message_handler request in
  emit HandlerExit;;
  lift response.

Definition _generic_method_handler (self : AuthenticateServerInterceptor)
    (message_handler : Request -> Result Response)
    (request : Request) (invocation_metadata : Metadata) : M Response :=
  with_lock (
    client_public_key_bytes ←
      lift (urlsafe_b64decode
              (_get_value_from_tuples _PUBLIC_KEY_HEADER invocation_metadata));
    let is_public_key_known :=
      bool_decide (client_public_key_bytes ∈ client_public_keys self) in
    (if is_public_key_known then
       match request with
       | CreateNodeRequest =>
           send_initial_metadata
             [(_PUBLIC_KEY_HEADER,
               MBytes (Base64.urlsafe_b64encode
                         (public_key_to_bytes (server_public_key self))))]
       | DeleteNodeRequest _ | PullTaskInsRequest _ _ | PushTaskResRequest _ =>
           hmac_value ←
             lift (urlsafe_b64decode
                     (_get_value_from_tuples _AUTH_TOKEN_HEADER invocation_metadata));
           client_public_key ← lift (bytes_to_public_key client_public_key_bytes);
           shared_secret ←
             lift (generate_shared_key (server_private_key self) client_public_key);
           let verify :=
             verify_hmac shared_secret (SerializeToString request true) hmac_value in
           if negb verify then abort UNAUTHENTICATED "Access denied!"
           else mret tt
       | OtherRequest _ => abort UNAUTHENTICATED "Access denied!"
       end
     else abort UNAUTHENTICATED "Access denied!");;
    unary_unary message_handler request).

(** One call on a fresh trace: what it returns or raises, and what it did. *)
Definition outcome (self : AuthenticateServerInterceptor)
    (message_handler : Request -> Result Response)
    (request : Request) (invocation_metadata : Metadata) : Result Response :=
  fst (_generic_method_handler self message_handler request invocation_metadata []).

Definition trace (self : AuthenticateServerInterceptor)
    (message_handler : Request -> Result Response)
    (request : Request) (invocation_metadata : Metadata) : list Event :=
  snd (_generic_method_handler self message_handler request invocation_metadata []).

(** The request kinds whose body is signed. *)
Definition is_signed_kind (request : Request) : bool :=
  match request with
  | DeleteNodeRequest _ | PullTaskInsRequest _ _ | PushTaskResRequest _ => true
  | CreateNodeRequest | OtherRequest _ => false
  end.

(** The HMAC check of a signed request passes for the client key [k]. *)
Definition hmac_passes (self : AuthenticateServerInterceptor)
    (request : Request) (invocation_metadata : Metadata) (k : bytes) : Prop :=
  exists hmac_value client_public_key shared_secret,
    urlsafe_b64decode (_get_value_from_tuples _AUTH_TOKEN_HEADER invocation_metadata)
      = Ok hmac_value /\
    bytes_to_public_key k = Ok client_public_key /\
    generate_shared_key (server_private_key self) client_public_key = Ok shared_secret /\
    verify_hmac shared_secret (SerializeToString request true) hmac_value = true.

(** The decoded public-key header is registered and the request is a
    CreateNode, or one of the three signed kinds with a passing HMAC. *)
Definition authenticated (self : AuthenticateServerInterceptor)
    (request : Request) (invocation_metadata : Metadata) : Prop :=
  exists k,
    urlsafe_b64decode (_get_value_from_tuples _PUBLIC_KEY_HEADER invocation_metadata)
      = Ok k /\
    k ∈ client_public_keys self /\
    (request = CreateNodeRequest \/
     (is_signed_kind request = true /\ hmac_passes self request invocation_metadata k)).

(** Every decoding and conversion step the call reaches succeeds. *)
Definition decodable (self : AuthenticateServerInterceptor)
    (request : Request) (invocation_metadata : Metadata) : Prop :=
  exists k,
    urlsafe_b64decode (_get_value_from_tuples _PUBLIC_KEY_HEADER invocation_metadata)
      = Ok k /\
    (k ∈ client_public_keys self -> is_signed_kind request = true ->
     exists hmac_value client_public_key shared_secret,
       urlsafe_b64decode (_get_value_from_tuples _AUTH_TOKEN_HEADER invocation_metadata)
         = Ok hmac_value /\
       bytes_to_public_key k = Ok client_public_key /\
       generate_shared_key (server_private_key self) client_public_key
         = Ok shared_secret).




Definition access_denied : exn := AbortError UNAUTHENTICATED "Access denied!".

Definition denied_trace : list Event :=
  [LockAcquire; ContextAbort UNAUTHENTICATED "Access denied!"; LockRelease].

(** The trace of a call that reaches the wrapped handler, after the events
    [pre] of the authentication steps. *)
Definition forwarded_trace (pre : list Event) (request : Request) : list Event :=
  LockAcquire :: pre ++ [HandlerEnter request; HandlerExit; LockRelease].


(** The lock is held after the events [tr] of one call. *)
Definition lock_held (tr : list Event) : bool :=
  foldl (fun held e =>
           match e with
           | LockAcquire => true
           | LockRelease => false
           | _ => held
           end) false tr.

(** The lock covers the authentication steps only: it has been released
    when the wrapped handler starts. *)
Definition handler_outside_lock (tr : list Event) : Prop :=
  forall pre request post,
    tr = pre ++ HandlerEnter request :: post -> lock_held pre = false.

(** *** Concurrent calls through one interceptor

    Each thread executes the events of its call in order; the threads
    interleave freely, except that [LockAcquire] needs the lock to be free. *)

Record Thread := mkThread { past : list Event; rest : list Event }.

Record Config := mkConfig { lock_owner : option nat; threads : nat -> Thread }.

Definition set_thread (t : nat) (th : Thread) (ths : nat -> Thread) : nat -> Thread :=
  fun t' => if decide (t' = t) then th else ths t'.

Definition is_lock_event (e : Event) : bool :=
  match e with
  | LockAcquire | LockRelease => true
  | _ => false
  end.

Inductive step (c : Config) : Config -> Prop :=
| step_acquire t p r :
    threads c t = mkThread p (LockAcquire :: r) ->
    lock_owner c = None ->
    step c (mkConfig (Some t) (set_thread t (mkThread (p ++ [LockAcquire]) r) (threads c)))
| step_release t p r :
    threads c t = mkThread p (LockRelease :: r) ->
    step c (mkConfig None (set_thread t (mkThread (p ++ [LockRelease]) r) (threads c)))
| step_event t p e r :
    threads c t = mkThread p (e :: r) ->
    is_lock_event e = false ->
    step c (mkConfig (lock_owner c) (set_thread t (mkThread (p ++ [e]) r) (threads c))).

(** Thread [t] serves the call [calls t]; nothing has run and the lock is free. *)
Definition initial (self : AuthenticateServerInterceptor)
    (calls : nat -> (Request -> Result Response) * Request * Metadata) : Config :=
  mkConfig None
    (fun t => let '(message_handler, request, invocation_metadata) := calls t in
              mkThread [] (trace self message_handler request invocation_metadata)).

(** The wrapped handler of the thread is running. *)
Definition in_handler (th : Thread) : Prop :=
  exists p request, past th = p ++ [HandlerEnter request].

(** *** Finitely many calls, whose handlers may fail to return

    A call comes with its wrapped handler, its request and its metadata;
    [handler_returns] tells whether [message_handler.unary_unary] comes back
    at all, by a return or by an exception. *)
Record Call := mkCall {
  call_handler : Request -> Result Response;
  call_request : Request;
  call_metadata : Metadata;
  handler_returns : bool
}.

(** The events of a call whose wrapped handler, once entered, never comes
    back: nothing follows [HandlerEnter]. *)
Fixpoint until_enter (tr : list Event) : list Event :=
  match tr with
  | [] => []
  | HandlerEnter request :: _ => [HandlerEnter request]
  | e :: tr => e :: until_enter tr
  end.

Definition call_events (self : AuthenticateServerInterceptor) (call : Call) : list Event :=
  let tr := trace self (call_handler call) (call_request call) (call_metadata call) in
  if handler_returns call then tr else until_enter tr.

(** The events thread [t] has to execute: those of the [t]-th call, none
    when there is no such call. *)
Definition thread_events (self : AuthenticateServerInterceptor) (calls : list Call)
    (t : nat) : list Event :=
  match calls !! t with
  | Some call => call_events self call
  | None => []
  end.

(** Thread [t] serves the [t]-th call of the list; nothing has run and the
    lock is free. *)
Definition initial_calls (self : AuthenticateServerInterceptor) (calls : list Call) : Config :=
  mkConfig None (fun t => mkThread [] (thread_events self calls t)).

(** Let thread [t] take its next step, if it can. *)
Definition run_thread (t : nat) (c : Config) : option Config :=
  match threads c t with
  | mkThread p [] => None
  | mkThread p (LockAcquire :: r) =>
      match lock_owner c with
      | None => Some (mkConfig (Some t) (set_thread t (mkThread (p ++ [LockAcquire]) r) (threads c)))
      | Some _ => None
      end
  | mkThread p (LockRelease :: r) =>
      Some (mkConfig None (set_thread t (mkThread (p ++ [LockRelease]) r) (threads c)))
  | mkThread p (e :: r) =>
      Some (mkConfig (lock_owner c) (set_thread t (mkThread (p ++ [e]) r) (threads c)))
  end.

(** Run the threads in the order of the schedule. *)
Fixpoint run_schedule (schedule : list nat) (c : Config) : option Config :=
  match schedule with
  | [] => Some c
  | t :: schedule =>
      match run_thread t c with
      | Some c' => run_schedule schedule c'
      | None => None
      end
  end.

(** What the threads [0 .. n-1] still have to execute. *)
Fixpoint remaining (ths : nat -> Thread) (n : nat) : nat :=
  match n with
  | O => O
  | S n => (length (rest (ths n)) + remaining ths n)%nat
  end.

(** *** Running the handler *)

Ltac exec_handler :=
  unfold outcome, trace, _generic_method_handler, with_lock, unary_unary, abort,
    send_initial_metadata, emit, lift;
  unfold mbind, M_bind, mret, M_ret; simpl.

Definition released (e : exn) : Result Response * list Event :=
  (Raise e, [LockAcquire; LockRelease]).

Definition denied : Result Response * list Event := (Raise access_denied, denied_trace).

Definition forwarded (pre : list Event) (message_handler : Request -> Result Response)
    (request : Request) : Result Response * list Event :=
  (message_handler request, forwarded_trace pre request).

Definition key_reply (self : AuthenticateServerInterceptor) : Event :=
  SendInitialMetadata
    [(_PUBLIC_KEY_HEADER,
      MBytes (Base64.urlsafe_b64encode (public_key_to_bytes (server_public_key self))))].

Lemma handler_run self h req md :
  _generic_method_handler self h req md [] =
  match urlsafe_b64decode (_get_value_from_tuples _PUBLIC_KEY_HEADER md) with
  | Raise e => released e
  | Ok k =>
      if bool_decide (k ∈ client_public_keys self) then
        match req with
        | CreateNodeRequest => forwarded [key_reply self] h req
        | OtherRequest _ => denied
        | _ =>
            match urlsafe_b64decode (_get_value_from_tuples _AUTH_TOKEN_HEADER md) with
            | Raise e => released e
            | Ok hmac_value =>
                match bytes_to_public_key k with
                | Raise e => released e
                | Ok client_public_key =>
                    match generate_shared_key (server_private_key self) client_public_key with
                    | Raise e => released e
                    | Ok shared_secret =>
                        if verify_hmac shared_secret (SerializeToString req true) hmac_value
                        then forwarded [] h req
                        else denied
                    end
                end
            end
        end
      else denied
  end.
Proof.
  exec_handler. unfold forwarded, forwarded_trace, released, denied.
  destruct (urlsafe_b64decode (_get_value_from_tuples _PUBLIC_KEY_HEADER md)) as [k|e];
    [|reflexivity].
  destruct (bool_decide (k ∈ client_public_keys self)); [|reflexivity].
  destruct req; simpl;
    try (destruct (urlsafe_b64decode (_get_value_from_tuples _AUTH_TOKEN_HEADER md));
         [|reflexivity];
         destruct (bytes_to_public_key k); [|reflexivity];
         destruct (generate_shared_key _ _); [|reflexivity];
         destruct (verify_hmac _ _ _); simpl; [|reflexivity]);
    reflexivity.
Qed.

(** Case analysis along the branches of the handler. *)
Ltac handler_cases self h req md :=
  rewrite (handler_run self h req md);
  let k := fresh "k" in
  destruct (urlsafe_b64decode (_get_value_from_tuples _PUBLIC_KEY_HEADER md))
    as [k|?] eqn:Hkey;
  [ destruct (decide (k ∈ client_public_keys self)) as [Hin|Hin];
    [ rewrite (bool_decide_eq_true_2 _ Hin);
      destruct req; simpl;
      try (destruct (urlsafe_b64decode (_get_value_from_tuples _AUTH_TOKEN_HEADER md))
             as [?|?] eqn:Htok;
           [ destruct (bytes_to_public_key k) as [?|?] eqn:Hpk;
             [ match goal with
               | |- context [generate_shared_key ?a ?b] =>
                   destruct (generate_shared_key a b) as [?|?] eqn:Hss
               end;
               [ match goal with
                 | |- context [verify_hmac ?a ?b ?c] =>
                     destruct (verify_hmac a b c) eqn:Hv
                 end | ] | ] | ])
    | rewrite (bool_decide_eq_false_2 _ Hin) ]
  | ].

Lemma authenticated_run self h req md :
  authenticated self req md ->
  exists pre,
    _generic_method_handler self h req md [] = forwarded pre h req /\
    (if is_signed_kind req then pre = [] else pre = [key_reply self]).
Proof.
  intros (k' & Hk' & Hin' & Hreq). unfold hmac_passes in Hreq.
  handler_cases self h req md; simplify_eq; eauto; try contradiction;
    destruct Hreq as [?|[? (? & ? & ? & ? & ? & ? & ?)]]; simplify_eq; congruence.
Qed.

Lemma denied_run self h req md :
  ~ authenticated self req md -> decodable self req md ->
  _generic_method_handler self h req md [] = denied.
Proof.
  intros Hna (k' & Hk' & Hdec). unfold authenticated, hmac_passes in Hna.
  handler_cases self h req md; simplify_eq; try reflexivity;
    try (exfalso; apply Hna; exists k'; split; [reflexivity|]; split; [done|];
         (by left) || (right; split; [reflexivity|]; eauto 10));
    destruct (Hdec Hin eq_refl) as (? & ? & ? & ? & ? & ?); simplify_eq; congruence.
Qed.

Lemma raising_run self h req md :
  ~ decodable self req md ->
  exists e, _generic_method_handler self h req md [] = released e.
Proof.
  intros Hnd. unfold decodable in Hnd.
  handler_cases self h req md; eauto;
    exfalso; apply Hnd; eexists; (split; [reflexivity|]); intros ? ?;
    simplify_eq; try done; eauto 10.
Qed.

Lemma decodable_or_not self req md : decodable self req md \/ ~ decodable self req md.
Proof.
  unfold decodable.
  destruct (urlsafe_b64decode (_get_value_from_tuples _PUBLIC_KEY_HEADER md))
    as [k|e] eqn:Hkey; [|right; intros (? & ? & _); discriminate].
  destruct (decide (k ∈ client_public_keys self)) as [Hin|Hin];
    [|left; exists k; split; [done|]; intros; contradiction].
  destruct (is_signed_kind req) eqn:Hs;
    [|left; exists k; split; [done|]; intros; discriminate].
  destruct (urlsafe_b64decode (_get_value_from_tuples _AUTH_TOKEN_HEADER md))
    as [hm|e] eqn:Htok.
  2:{ right. intros (k' & Hk' & H). simplify_eq.
      destruct (H Hin eq_refl) as (? & ? & ? & ? & _). discriminate. }
  destruct (bytes_to_public_key k) as [pk|e] eqn:Hpk.
  2:{ right. intros (k' & Hk' & H). simplify_eq.
      destruct (H Hin eq_refl) as (? & ? & ? & _ & ? & _). congruence. }
  destruct (generate_shared_key (server_private_key self) pk) as [ss|e] eqn:Hss.
  2:{ right. intros (k' & Hk' & H). simplify_eq.
      destruct (H Hin eq_refl) as (? & ? & ? & _ & ? & ?). congruence. }
  left. exists k. split; [done|]. intros _ _. eauto 10.
Qed.

Lemma authenticated_decodable self req md :
  authenticated self req md -> decodable self req md.
Proof.
  intros (k & Hk & Hin & Hreq). exists k. split; [done|]. intros _ Hs.
  destruct Hreq as [->|[_ (hm & pk & ss & ? & ? & ? & _)]]; [discriminate|eauto 10].
Qed.

Lemma authenticated_or_not self req md :
  authenticated self req md \/ ~ authenticated self req md.
Proof.
  destruct (decodable_or_not self req md) as [Hd|Hd];
    [|right; intros H; now apply Hd, authenticated_decodable].
  destruct Hd as (k & Hk & Hd).
  destruct (decide (k ∈ client_public_keys self)) as [Hin|Hin].
  2:{ right. intros (k' & Hk' & Hin' & _). congruence. }
  destruct req;
    try (left; exists k; split; [done|]; split; [done|]; by left);
    try (right; intros (k' & _ & _ & [?|[? _]]); discriminate);
    destruct (Hd Hin eq_refl) as (hm & pk & ss & Htok & Hpk & Hss);
    match goal with
    | |- authenticated _ ?r _ \/ _ =>
        destruct (verify_hmac ss (SerializeToString r true) hm) eqn:Hv
    end;
    first
      [ solve [left; exists k; split; [done|]; split; [done|]; right; split; [done|];
               unfold hmac_passes; eauto 10]
      | right; intros (k' & Hk' & _ & [?|[_ (? & ? & ? & ? & ? & ? & ?)]]);
        simplify_eq; congruence ].
Qed.

Lemma elem_of_forwarded_trace e pre req :
  e ∈ forwarded_trace pre req <->
  e = LockAcquire \/ e ∈ pre \/ e = HandlerEnter req \/ e = HandlerExit \/ e = LockRelease.
Proof.
  unfold forwarded_trace. rewrite elem_of_cons, elem_of_app, !elem_of_cons, elem_of_nil.
  tauto.
Qed.

Lemma elem_of_denied_trace e :
  e ∈ denied_trace <->
  e = LockAcquire \/ e = ContextAbort UNAUTHENTICATED "Access denied!" \/ e = LockRelease.
Proof. unfold denied_trace. rewrite !elem_of_cons, elem_of_nil. tauto. Qed.

(** Every call acquires the lock first, releases it last, and touches it
    nowhere in between. *)
Lemma trace_bracketed self h req md :
  exists mid,
    trace self h req md = LockAcquire :: mid ++ [LockRelease] /\
    forallb (fun e => negb (is_lock_event e)) mid = true.
Proof.
  unfold trace.
  destruct (authenticated_or_not self req md) as [Ha|Hna].
  - destruct (authenticated_run self h req md Ha) as (pre & -> & Hpre).
    exists (pre ++ [HandlerEnter req; HandlerExit]). split.
    + simpl. unfold forwarded_trace. now rewrite <- app_assoc.
    + destruct (is_signed_kind req); subst pre; reflexivity.
  - destruct (decodable_or_not self req md) as [Hd|Hd].
    + rewrite (denied_run self h req md Hna Hd).
      exists [ContextAbort UNAUTHENTICATED "Access denied!"]. split; reflexivity.
    + destruct (raising_run self h req md Hd) as (e & ->).
      exists []. split; reflexivity.
Qed.


(** *** Mutual exclusion of the wrapped handlers *)

Definition lock_free (mid : list Event) : Prop :=
  forallb (fun e => negb (is_lock_event e)) mid = true.

Definition bracketed (tr : list Event) : Prop :=
  exists mid, tr = LockAcquire :: mid ++ [LockRelease] /\ lock_free mid.

(** The thread is between its [LockAcquire] and its [LockRelease]. *)
Definition inside (th : Thread) : Prop := past th <> [] /\ rest th <> [].

Definition inv (c : Config) : Prop :=
  (forall t, bracketed (past (threads c t) ++ rest (threads c t))) /\
  (forall t, inside (threads c t) <-> lock_owner c = Some t).

Lemma lock_free_elem mid e : lock_free mid -> e ∈ mid -> is_lock_event e = false.
Proof.
  unfold lock_free. rewrite forallb_forall. intros H He.
  apply list_elem_of_In in He. apply H in He. now destruct (is_lock_event e).
Qed.

Lemma split_at_last (x : Event) l1 l2 m :
  l1 ++ x :: l2 = m ++ [x] -> x ∉ m -> l1 = m /\ l2 = [].
Proof.
  revert m. induction l1 as [|a l1 IH]; intros m Heq Hx.
  - destruct m as [|b m]; simpl in Heq.
    + now injection Heq.
    + injection Heq as <- _. exfalso. apply Hx. left.
  - destruct m as [|b m]; simpl in Heq.
    + injection Heq as _ Heq. now destruct l1.
    + injection Heq as <- Heq. destruct (IH m Heq) as [-> ->]; [|done].
      intros ?. apply Hx. now right.
Qed.

Lemma bracketed_acquire p r : bracketed (p ++ LockAcquire :: r) -> p = [] /\ r <> [].
Proof.
  intros (mid & Heq & Hfree). destruct p as [|e p]; simpl in Heq.
  - split; [done|]. injection Heq as ->. now destruct mid.
  - exfalso. injection Heq as -> Heq.
    assert (Hin : LockAcquire ∈ mid ++ [LockRelease]).
    { rewrite <- Heq. apply elem_of_app. right. left. }
    apply elem_of_app in Hin as [Hin|Hin].
    + now apply (lock_free_elem _ _ Hfree) in Hin.
    + apply list_elem_of_singleton in Hin. discriminate.
Qed.

Lemma bracketed_release p r : bracketed (p ++ LockRelease :: r) -> p <> [] /\ r = [].
Proof.
  intros (mid & Heq & Hfree). destruct p as [|e p]; simpl in Heq; [discriminate|].
  split; [done|]. injection Heq as -> Heq.
  apply split_at_last in Heq as [_ ->]; [done|].
  intros Hin. now apply (lock_free_elem _ _ Hfree) in Hin.
Qed.

Lemma bracketed_event p e r :
  is_lock_event e = false -> bracketed (p ++ e :: r) -> p <> [] /\ r <> [].
Proof.
  intros He (mid & Heq & Hfree). split.
  - intros ->. simpl in Heq. injection Heq as -> _. discriminate.
  - intros ->. change (LockAcquire :: mid ++ [LockRelease])
      with ((LockAcquire :: mid) ++ [LockRelease]) in Heq.
    apply app_inj_tail in Heq as [_ ->]. discriminate.
Qed.

Lemma in_handler_inside th :
  bracketed (past th ++ rest th) -> in_handler th -> inside th.
Proof.
  intros (mid & Heq & _) (p & req & Hp). split.
  - rewrite Hp. now destruct p.
  - intros Hr. rewrite Hr, app_nil_r, Hp in Heq.
    change (LockAcquire :: mid ++ [LockRelease])
      with ((LockAcquire :: mid) ++ [LockRelease]) in Heq.
    apply app_inj_tail in Heq as [_ ?]. discriminate.
Qed.

Lemma inv_initial self calls : inv (initial self calls).
Proof.
  split; intros t; simpl.
  - destruct (calls t) as [[h req] md]. simpl.
    destruct (trace_bracketed self h req md) as (mid & ? & ?). now exists mid.
  - destruct (calls t) as [[h req] md]. unfold inside. simpl. split; [tauto|discriminate].
Qed.

Lemma inv_step c c' : inv c -> step c c' -> inv c'.
Proof.
  intros [Hbr Hown] Hstep.
  destruct Hstep as [t p r Ht Hfree | t p r Ht | t p e r Ht He];
    pose proof (Hbr t) as Hbt; rewrite Ht in Hbt; simpl in Hbt.
  - apply bracketed_acquire in Hbt as Hpr. destruct Hpr as [-> Hr].
    split; intros t'; simpl; unfold set_thread; destruct (decide (t' = t)) as [->|Hne]; simpl.
    + exact Hbt.
    + apply Hbr.
    + unfold inside. simpl. split; [done|]. intros _. split; [discriminate|done].
    + rewrite Hown, Hfree. split; [discriminate|]. intros [= ?]. congruence.
  - apply bracketed_release in Hbt as Hpr. destruct Hpr as [Hp ->].
    assert (Hin : inside (threads c t)).
    { rewrite Ht. split; simpl; [done|discriminate]. }
    apply Hown in Hin.
    split; intros t'; simpl; unfold set_thread; destruct (decide (t' = t)) as [->|Hne]; simpl.
    + now rewrite <- app_assoc.
    + apply Hbr.
    + unfold inside. simpl. split; [intros [_ ?]; done | discriminate].
    + rewrite Hown, Hin. split; [intros [= ?]; congruence | discriminate].
  - apply (bracketed_event _ _ _ He) in Hbt as Hpr. destruct Hpr as [Hp Hr].
    assert (Hin : inside (threads c t)).
    { rewrite Ht. split; simpl; [done|discriminate]. }
    apply Hown in Hin.
    split; intros t'; simpl; unfold set_thread; destruct (decide (t' = t)) as [->|Hne]; simpl.
    + now rewrite <- app_assoc.
    + apply Hbr.
    + unfold inside. simpl. split; [done|]. intros _. split; [now destruct p | done].
    + apply Hown.
Qed.

Lemma inv_reachable self calls c : rtc step (initial self calls) c -> inv c.
Proof.
  revert c. apply rtc_ind_r; [apply inv_initial|].
  intros y z _ Hyz Hy. exact (inv_step y z Hy Hyz).
Qed.

(** *** The gate *)



Lemma signed_run self h req md k :
  is_signed_kind req = true ->
  urlsafe_b64decode (_get_value_from_tuples _PUBLIC_KEY_HEADER md) = Ok k ->
  k ∈ client_public_keys self ->
  _generic_method_handler self h req md [] =
  match urlsafe_b64decode (_get_value_from_tuples _AUTH_TOKEN_HEADER md) with
  | Raise e => released e
  | Ok hmac_value =>
      match bytes_to_public_key k with
      | Raise e => released e
      | Ok client_public_key =>
          match generate_shared_key (server_private_key self) client_public_key with
          | Raise e => released e
          | Ok shared_secret =>
              if verify_hmac shared_secret (SerializeToString req true) hmac_value
              then forwarded [] h req
              else denied
          end
      end
  end.
Proof.
  intros Hs Hkey Hin. rewrite handler_run, Hkey, (bool_decide_eq_true_2 _ Hin).
  destruct req; try discriminate; reflexivity.
Qed.









(** C4: for a CreateNode request with a registered key, the server public
    key, base64url-encoded under the public-key header, is sent as initial
    metadata before the wrapped handler is entered; decoding the value sent
    gives the bytes of the server public key back. *)
Theorem create_node_sends_server_key self h md k :
  urlsafe_b64decode (_get_value_from_tuples _PUBLIC_KEY_HEADER md) = Ok k ->
  k ∈ client_public_keys self ->
  trace self h CreateNodeRequest md =
    [LockAcquire;
     SendInitialMetadata
       [(_PUBLIC_KEY_HEADER,
         MBytes (Base64.urlsafe_b64encode (public_key_to_bytes (server_public_key self))))];
     HandlerEnter CreateNodeRequest; HandlerExit; LockRelease] /\
  Base64.urlsafe_b64decode
    (Base64.urlsafe_b64encode (public_key_to_bytes (server_public_key self)))
    = Some (public_key_to_bytes (server_public_key self)) /\
  outcome self h CreateNodeRequest md = h CreateNodeRequest.
Proof.
  intros Hkey Hin. unfold outcome, trace. rewrite handler_run.
  rewrite Hkey, (bool_decide_eq_true_2 _ Hin).
  split; [reflexivity|]. split; [apply Base64.urlsafe_b64decode_encode|reflexivity].
Qed.

Lemma next_value_absent key_string tuples default :
  (forall key value, (key, value) ∈ tuples -> key <> key_string) ->
  next_value key_string tuples default = default.
Proof.
  induction tuples as [|[key value] tuples IH]; intros H; simpl; [done|].
  rewrite bool_decide_eq_false_2.
  - apply IH. intros key' value' Hin. apply (H key' value'). now right.
  - apply (H key value). left.
Qed.

(** C9: without a public-key header the client key is the empty byte
    string, and the call is aborted with the unauthenticated status unless
    the empty byte string is registered. *)
Theorem missing_key_header_denied self h req md :
  (forall key value, (key, value) ∈ md -> key <> _PUBLIC_KEY_HEADER) ->
  _get_value_from_tuples _PUBLIC_KEY_HEADER md = [] /\
  urlsafe_b64decode (_get_value_from_tuples _PUBLIC_KEY_HEADER md) = Ok [] /\
  ([] ∉ client_public_keys self ->
   outcome self h req md = Raise access_denied /\
   trace self h req md = denied_trace /\
   forall req', HandlerEnter req' ∉ trace self h req md).
Proof.
  intros Habs.
  assert (Hv : _get_value_from_tuples _PUBLIC_KEY_HEADER md = []).
  { unfold _get_value_from_tuples. now rewrite next_value_absent. }
  assert (Hd : urlsafe_b64decode (_get_value_from_tuples _PUBLIC_KEY_HEADER md) = Ok []).
  { now rewrite Hv. }
  split; [done|]. split; [done|]. intros Hnin.
  unfold outcome, trace. rewrite handler_run, Hd, (bool_decide_eq_false_2 _ Hnin).
  split; [done|]. split; [done|]. intros req'. simpl.
  rewrite elem_of_denied_trace. naive_solver.
Qed.

Lemma trace_shape self h req md :
  trace self h req md = forwarded_trace [] req \/
  trace self h req md = forwarded_trace [key_reply self] req \/
  trace self h req md = denied_trace \/
  trace self h req md = [LockAcquire; LockRelease].
Proof.
  unfold trace. destruct (authenticated_or_not self req md) as [Ha|Hna].
  - destruct (authenticated_run self h req md Ha) as (pre & -> & Hpre). simpl.
    destruct (is_signed_kind req); subst pre; auto.
  - destruct (decodable_or_not self req md) as [Hd|Hd].
    + rewrite (denied_run self h req md Hna Hd). auto.
    + destruct (raising_run self h req md Hd) as (e & ->). auto.
Qed.

(** C8 (amended): the lock is held for the whole call, the run of the
    wrapped handler included: it is held when the handler is entered and
    released only after the handler has finished.  So the wrapped handlers
    of concurrent calls through one interceptor never run at the same time. *)
Theorem handler_runs_under_lock self :
  (forall h req md pre req' post,
     trace self h req md = pre ++ HandlerEnter req' :: post ->
     lock_held pre = true /\ post = [HandlerExit; LockRelease]) /\
  (forall calls c, rtc step (initial self calls) c ->
   forall t1 t2,
     in_handler (threads c t1) -> in_handler (threads c t2) -> t1 = t2).
Proof.
  split.
  - intros h req md pre req' post Heq.
    destruct (trace_shape self h req md) as [H|[H|[H|H]]]; rewrite H in Heq;
      unfold forwarded_trace, denied_trace, key_reply in Heq; simpl in Heq;
      repeat (destruct pre as [|? pre]; simplify_eq/=; try done).
  - intros calls c Hreach t1 t2 H1 H2.
    destruct (inv_reachable self calls c Hreach) as [Hbr Hown].
    apply in_handler_inside, Hown in H1; [|apply Hbr].
    apply in_handler_inside, Hown in H2; [|apply Hbr].
    congruence.
Qed.

(** *** Further properties of the handler *)

Lemma lock_held_bracketed mid :
  lock_held (LockAcquire :: mid ++ [LockRelease]) = false.
Proof. unfold lock_held. simpl. now rewrite foldl_app. Qed.

(** X5: on every path, a return, an abort or an exception of a callee, the
    call takes the lock first, releases it last and does not touch it in
    between; it never leaves the lock held. *)
Theorem lock_released_on_every_path self h req md :
  exists mid,
    trace self h req md = LockAcquire :: mid ++ [LockRelease] /\
    (forall e, e ∈ mid -> is_lock_event e = false) /\
    lock_held (trace self h req md) = false.
Proof.
  destruct (trace_bracketed self h req md) as (mid & Heq & Hfree).
  exists mid. split; [done|]. split.
  - intros e He. now apply (lock_free_elem mid).
  - rewrite Heq. apply lock_held_bracketed.
Qed.

(** X6: an abort is final and uniform: whenever [context.abort] is called
    it is with the unauthenticated status and the fixed message, nothing
    was sent before it, the wrapped handler is not entered, and the call
    raises the abort. *)
Theorem abort_is_final self h req md code details :
  ContextAbort code details ∈ trace self h req md ->
  code = UNAUTHENTICATED /\ details = "Access denied!" /\
  trace self h req md = denied_trace /\
  outcome self h req md = Raise access_denied.
Proof.
  unfold trace, outcome. intros Hin.
  destruct (authenticated_or_not self req md) as [Ha|Hna].
  - exfalso. destruct (authenticated_run self h req md Ha) as (pre & Hrun & Hpre).
    rewrite Hrun in Hin. simpl in Hin. apply elem_of_forwarded_trace in Hin.
    destruct (is_signed_kind req); subst pre; unfold key_reply in Hin;
      rewrite ?elem_of_cons, ?elem_of_nil in Hin; naive_solver.
  - destruct (decodable_or_not self req md) as [Hd|Hd].
    + rewrite (denied_run self h req md Hna Hd) in *. simpl in *.
      apply elem_of_denied_trace in Hin. naive_solver.
    + exfalso. destruct (raising_run self h req md Hd) as (e & He).
      rewrite He in Hin. simpl in Hin.
      rewrite !elem_of_cons, elem_of_nil in Hin. naive_solver.
Qed.

(** X7: the server public key is sent only to a caller that presented a
    registered key in a CreateNode request, and what is sent is the single
    public-key entry. *)
Theorem server_key_only_on_create_node self h req md initial_metadata :
  SendInitialMetadata initial_metadata ∈ trace self h req md ->
  req = CreateNodeRequest /\
  (exists k,
     urlsafe_b64decode (_get_value_from_tuples _PUBLIC_KEY_HEADER md) = Ok k /\
     k ∈ client_public_keys self) /\
  initial_metadata =
    [(_PUBLIC_KEY_HEADER,
      MBytes (Base64.urlsafe_b64encode (public_key_to_bytes (server_public_key self))))].
Proof.
  unfold trace. intros Hin.
  destruct (authenticated_or_not self req md) as [Ha|Hna].
  - destruct (authenticated_run self h req md Ha) as (pre & Hrun & Hpre).
    rewrite Hrun in Hin. simpl in Hin. apply elem_of_forwarded_trace in Hin.
    destruct Ha as (k & Hk & Hkin & Hreq).
    destruct (is_signed_kind req) eqn:Hs; subst pre.
    + exfalso. rewrite elem_of_nil in Hin. naive_solver.
    + destruct Hreq as [->|[Hs' _]]; [|congruence].
      split; [done|]. split; [eauto|].
      unfold key_reply in Hin. rewrite elem_of_cons, elem_of_nil in Hin.
      naive_solver.
  - exfalso. destruct (decodable_or_not self req md) as [Hd|Hd].
    + rewrite (denied_run self h req md Hna Hd) in Hin. simpl in Hin.
      apply elem_of_denied_trace in Hin. naive_solver.
    + destruct (raising_run self h req md Hd) as (e & He).
      rewrite He in Hin. simpl in Hin.
      rewrite !elem_of_cons, elem_of_nil in Hin. naive_solver.
Qed.

Lemma urlsafe_b64decode_encoded (s k : bytes) :
  s = Base64.urlsafe_b64encode k -> urlsafe_b64decode s = Ok k.
Proof.
  intros ->. unfold urlsafe_b64decode. now rewrite Base64.urlsafe_b64decode_encode.
Qed.

(** X8: a caller whose public-key header is the url-safe base64 of a
    registered key is let through on CreateNode, and on a signed kind when
    its auth-token header is the url-safe base64 of a tag that verifies; the
    call then returns what the wrapped handler returns. *)
Theorem encoded_credentials_accepted self h req md k :
  _get_value_from_tuples _PUBLIC_KEY_HEADER md = Base64.urlsafe_b64encode k ->
  k ∈ client_public_keys self ->
  (req = CreateNodeRequest \/
   (is_signed_kind req = true /\
    exists tag client_public_key shared_secret,
      _get_value_from_tuples _AUTH_TOKEN_HEADER md = Base64.urlsafe_b64encode tag /\
      bytes_to_public_key k = Ok client_public_key /\
      generate_shared_key (server_private_key self) client_public_key
        = Ok shared_secret /\
      verify_hmac shared_secret (SerializeToString req true) tag = true)) ->
  outcome self h req md = h req /\
  HandlerEnter req ∈ trace self h req md.
Proof.
  intros Hkey Hin Hreq.
  assert (Ha : authenticated self req md).
  { exists k. split; [now apply urlsafe_b64decode_encoded|]. split; [done|].
    destruct Hreq as [->|[Hs (tag & pk & ss & Htok & Hpk & Hss & Hv)]]; [by left|].
    right. split; [done|]. exists tag, pk, ss.
    split; [now apply urlsafe_b64decode_encoded|]. done. }
  unfold outcome, trace.
  destruct (authenticated_run self h req md Ha) as (pre & -> & _). simpl.
  split; [done|]. apply elem_of_forwarded_trace. tauto.
Qed.

(** X9: a signed request with a registered key and no auth-token header
    is checked against the empty tag.  The key bytes are converted and the
    secret derived as usual, and an exception of either step ends the call;
    otherwise the call is aborted with the unauthenticated status unless
    the empty byte string verifies. *)
Theorem missing_auth_token_is_empty_tag self h req md k :
  is_signed_kind req = true ->
  urlsafe_b64decode (_get_value_from_tuples _PUBLIC_KEY_HEADER md) = Ok k ->
  k ∈ client_public_keys self ->
  (forall key value, (key, value) ∈ md -> key <> _AUTH_TOKEN_HEADER) ->
  match bytes_to_public_key k with
  | Raise e =>
      outcome self h req md = Raise e /\
      trace self h req md = [LockAcquire; LockRelease]
  | Ok client_public_key =>
      match generate_shared_key (server_private_key self) client_public_key with
      | Raise e =>
          outcome self h req md = Raise e /\
          trace self h req md = [LockAcquire; LockRelease]
      | Ok shared_secret =>
          if verify_hmac shared_secret (SerializeToString req true) []
          then outcome self h req md = h req /\
               trace self h req md = forwarded_trace [] req
          else outcome self h req md = Raise access_denied /\
               trace self h req md = denied_trace
      end
  end.
Proof.
  intros Hs Hkey Hin Habs.
  assert (Htok : urlsafe_b64decode (_get_value_from_tuples _AUTH_TOKEN_HEADER md) = Ok []).
  { unfold _get_value_from_tuples. now rewrite next_value_absent. }
  unfold outcome, trace. rewrite (signed_run self h req md k Hs Hkey Hin), Htok.
  destruct (bytes_to_public_key k) as [pk|e]; [|split; reflexivity].
  destruct (generate_shared_key (server_private_key self) pk) as [ss|e];
    [|split; reflexivity].
  destruct (verify_hmac _ _ _); split; reflexivity.
Qed.

(** *** Progress of finitely many calls *)

Lemma run_thread_step t c c' : run_thread t c = Some c' -> step c c'.
Proof.
  unfold run_thread. destruct (threads c t) as [p [|e r]] eqn:Ht; [discriminate|].
  destruct e.
  - destruct (lock_owner c) eqn:Hlock; [discriminate|].
    intros [= <-]. now apply (step_acquire c t p r).
  - intros [= <-]. now apply (step_release c t p r).
  - intros [= <-]. now apply (step_event c t p _ r).
  - intros [= <-]. now apply (step_event c t p _ r).
  - intros [= <-]. now apply (step_event c t p _ r).
  - intros [= <-]. now apply (step_event c t p _ r).
Qed.

Lemma run_schedule_rtc schedule c c' : run_schedule schedule c = Some c' -> rtc step c c'.
Proof.
  revert c. induction schedule as [|t schedule IH]; intros c; simpl.
  - intros [= <-]. apply rtc_refl.
  - destruct (run_thread t c) as [c1|] eqn:Hrun; [|discriminate].
    intros H. eapply rtc_l; [exact (run_thread_step t c c1 Hrun) | now apply IH].
Qed.

(** The invariant of a run in which thread [t] executes the events [E t]. *)
Definition inv_events (E : nat -> list Event) (c : Config) : Prop :=
  (forall t, past (threads c t) ++ rest (threads c t) = E t) /\
  (forall t, inside (threads c t) <-> lock_owner c = Some t).

Section Events.

Variable E : nat -> list Event.
Hypothesis E_bracketed : forall t, bracketed (E t) \/ E t = [].

Lemma active_bracketed c t p e r :
  inv_events E c -> threads c t = mkThread p (e :: r) -> bracketed (p ++ e :: r).
Proof.
  intros [Hev _] Ht. pose proof (Hev t) as Heq. rewrite Ht in Heq. simpl in Heq.
  destruct (E_bracketed t) as [Hb|Hnil].
  - now rewrite Heq.
  - rewrite Hnil in Heq. now destruct p.
Qed.

Lemma inv_events_step c c' : inv_events E c -> step c c' -> inv_events E c'.
Proof.
  intros Hinv Hstep. pose proof Hinv as [Hev Hown].
  destruct Hstep as [t p r Ht Hfree | t p r Ht | t p e r Ht He];
    pose proof (active_bracketed c t p _ r Hinv Ht) as Hbt;
    pose proof (Hev t) as Het; rewrite Ht in Het; simpl in Het.
  - apply bracketed_acquire in Hbt as Hpr. destruct Hpr as [-> Hr].
    split; intros t'; simpl; unfold set_thread; destruct (decide (t' = t)) as [->|Hne]; simpl.
    + exact Het.
    + apply Hev.
    + unfold inside. simpl. split; [done|]. intros _. split; [discriminate|done].
    + rewrite Hown, Hfree. split; [discriminate|]. intros [= ?]. congruence.
  - apply bracketed_release in Hbt as Hpr. destruct Hpr as [Hp ->].
    assert (Hin : inside (threads c t)).
    { rewrite Ht. split; simpl; [done|discriminate]. }
    apply Hown in Hin.
    split; intros t'; simpl; unfold set_thread; destruct (decide (t' = t)) as [->|Hne]; simpl.
    + now rewrite <- app_assoc.
    + apply Hev.
    + unfold inside. simpl. split; [intros [_ ?]; done | discriminate].
    + rewrite Hown, Hin. split; [intros [= ?]; congruence | discriminate].
  - apply (bracketed_event _ _ _ He) in Hbt as Hpr. destruct Hpr as [Hp Hr].
    assert (Hin : inside (threads c t)).
    { rewrite Ht. split; simpl; [done|discriminate]. }
    apply Hown in Hin.
    split; intros t'; simpl; unfold set_thread; destruct (decide (t' = t)) as [->|Hne]; simpl.
    + now rewrite <- app_assoc.
    + apply Hev.
    + unfold inside. simpl. split; [done|]. intros _. split; [now destruct p | done].
    + apply Hown.
Qed.

Lemma inv_events_rtc c c' : inv_events E c -> rtc step c c' -> inv_events E c'.
Proof.
  intros Hinv Hrtc. induction Hrtc as [|c c1 c2 Hstep _ IH]; [done|].
  apply IH. exact (inv_events_step c c1 Hinv Hstep).
Qed.

(** As long as a thread has an event left, some thread can step: the owner
    of the lock if there is one, any unfinished thread otherwise. *)
Lemma inv_events_progress c :
  inv_events E c -> (exists t, rest (threads c t) <> []) -> exists c', step c c'.
Proof.
  intros Hinv [t Ht]. pose proof Hinv as [Hev Hown].
  destruct (lock_owner c) as [t0|] eqn:Hlock.
  - pose proof (proj2 (Hown t0) eq_refl) as [Hp Hr].
    destruct (threads c t0) as [p [|e r]] eqn:Ht0; [done|]. simpl in Hp.
    pose proof (active_bracketed c t0 p e r Hinv Ht0) as Hb.
    destruct e.
    + apply bracketed_acquire in Hb as [-> _]. done.
    + eexists. eapply step_release; eauto.
    + eexists. eapply step_event; eauto.
    + eexists. eapply step_event; eauto.
    + eexists. eapply step_event; eauto.
    + eexists. eapply step_event; eauto.
  - destruct (threads c t) as [p [|e r]] eqn:Ht0; [done|].
    destruct e.
    + eexists. eapply step_acquire; eauto.
    + eexists. eapply step_release; eauto.
    + eexists. eapply step_event; eauto.
    + eexists. eapply step_event; eauto.
    + eexists. eapply step_event; eauto.
    + eexists. eapply step_event; eauto.
Qed.

Lemma inv_events_finished c :
  inv_events E c -> (forall t, rest (threads c t) = []) ->
  lock_owner c = None /\ forall t, past (threads c t) = E t.
Proof.
  intros [Hev Hown] Hdone. split.
  - destruct (lock_owner c) as [t0|] eqn:Hlock; [|done].
    pose proof (proj2 (Hown t0) eq_refl) as [_ Hr]. now rewrite Hdone in Hr.
  - intros t. rewrite <- (Hev t), Hdone. now rewrite app_nil_r.
Qed.

Lemma remaining_other ths t th n :
  (n <= t)%nat -> remaining (set_thread t th ths) n = remaining ths n.
Proof.
  induction n as [|n IH]; intros Hle; simpl; [done|].
  rewrite IH by lia. unfold set_thread. destruct (decide (n = t)); [lia|done].
Qed.

Lemma remaining_step ths t p p' e r n :
  (t < n)%nat -> ths t = mkThread p (e :: r) ->
  S (remaining (set_thread t (mkThread p' r) ths) n) = remaining ths n.
Proof.
  induction n as [|n IH]; intros Hlt Ht; [lia|]. simpl.
  destruct (decide (n = t)) as [->|Hne].
  - rewrite remaining_other by lia. unfold set_thread.
    destruct (decide (t = t)); [|done]. rewrite Ht. simpl. lia.
  - unfold set_thread at 1. destruct (decide (n = t)); [done|].
    rewrite <- (IH ltac:(lia) Ht). lia.
Qed.

Lemma remaining_zero ths n t : remaining ths n = O -> (t < n)%nat -> rest (ths t) = [].
Proof.
  induction n as [|n IH]; intros Hz Hlt; [lia|]. simpl in Hz.
  destruct (decide (t = n)) as [->|Hne].
  - destruct (rest (ths n)); [done|simpl in Hz; lia].
  - apply IH; lia.
Qed.

Lemma remaining_pos ths n m :
  remaining ths n = S m -> exists t, rest (ths t) <> [].
Proof.
  induction n as [|n IH]; intros Hs; [discriminate|]. simpl in Hs.
  destruct (rest (ths n)) as [|e r] eqn:Hr.
  - apply IH. exact Hs.
  - exists n. now rewrite Hr.
Qed.

Variable n : nat.
Hypothesis E_beyond : forall t, (n <= t)%nat -> E t = [].

Lemma inv_events_active c t p e r :
  inv_events E c -> threads c t = mkThread p (e :: r) -> (t < n)%nat.
Proof.
  intros [Hev _] Ht. destruct (decide (t < n)%nat) as [|Hge]; [done|].
  pose proof (Hev t) as Heq. rewrite Ht, E_beyond in Heq by lia.
  simpl in Heq. now destruct p.
Qed.

Lemma step_remaining c c' :
  inv_events E c -> step c c' -> S (remaining (threads c') n) = remaining (threads c) n.
Proof.
  intros Hinv Hstep.
  destruct Hstep as [t p r Ht Hfree | t p r Ht | t p e r Ht He]; simpl;
    apply (remaining_step _ t p _ _ r n (inv_events_active c t p _ r Hinv Ht) Ht).
Qed.

(** Every run can be completed. *)
Lemma inv_events_completes m c :
  inv_events E c -> remaining (threads c) n = m ->
  exists c', rtc step c c' /\ forall t, rest (threads c' t) = [].
Proof.
  revert c. induction m as [|m IH]; intros c Hinv Hm.
  - exists c. split; [apply rtc_refl|]. intros t.
    destruct (decide (t < n)%nat) as [Hlt|Hge].
    + exact (remaining_zero _ n t Hm Hlt).
    + destruct Hinv as [Hev _]. pose proof (Hev t) as Heq.
      rewrite E_beyond in Heq by lia. now apply app_eq_nil in Heq.
  - destruct (inv_events_progress c Hinv (remaining_pos _ n m Hm)) as [c1 Hstep].
    pose proof (step_remaining c c1 Hinv Hstep) as Hrem.
    destruct (IH c1 (inv_events_step c c1 Hinv Hstep) ltac:(lia)) as (c' & Hrtc & Hdone).
    exists c'. split; [|done]. eapply rtc_l; eauto.
Qed.

End Events.

Lemma inv_events_initial self calls :
  inv_events (thread_events self calls) (initial_calls self calls).
Proof.
  split; intros t; simpl; [done|].
  unfold inside. simpl. split; [tauto|discriminate].
Qed.

Lemma thread_events_bracketed self calls t :
  Forall (fun call => handler_returns call = true) calls ->
  bracketed (thread_events self calls t) \/ thread_events self calls t = [].
Proof.
  intros Hret. unfold thread_events.
  destruct (calls !! t) as [call|] eqn:Hcall; [left|by right].
  unfold call_events.
  rewrite (proj1 (Forall_lookup _ calls) Hret t call Hcall).
  destruct (trace_bracketed self (call_handler call) (call_request call)
              (call_metadata call)) as (mid & ? & ?).
  now exists mid.
Qed.

Lemma thread_events_beyond self calls t :
  (length calls <= t)%nat -> thread_events self calls t = [].
Proof. intros Hle. unfold thread_events. now rewrite lookup_ge_None_2. Qed.

(** X10: finitely many concurrent calls through one interceptor whose
    wrapped handlers all return or raise never deadlock: in every reachable
    configuration, as long as some call has not finished, some thread can
    take its next step; once every call has finished, the lock is free and
    every call has executed all its events; and every reachable
    configuration can be run on until every call has finished. *)
Theorem no_deadlock self calls c :
  Forall (fun call => handler_returns call = true) calls ->
  rtc step (initial_calls self calls) c ->
  ((exists t, rest (threads c t) <> []) -> exists c', step c c') /\
  ((forall t, rest (threads c t) = []) ->
   lock_owner c = None /\
   forall t call, calls !! t = Some call ->
     past (threads c t) =
     trace self (call_handler call) (call_request call) (call_metadata call)) /\
  (exists c', rtc step c c' /\ forall t, rest (threads c' t) = []).
Proof.
  intros Hret Hreach.
  pose proof (fun t => thread_events_bracketed self calls t Hret) as Hbr.
  pose proof (inv_events_rtc _ Hbr _ _ (inv_events_initial self calls) Hreach) as Hinv.
  split; [|split].
  - exact (inv_events_progress _ Hbr c Hinv).
  - intros Hdone. destruct (inv_events_finished _ c Hinv Hdone) as [Hfree Hpast].
    split; [done|]. intros t call Hcall. rewrite Hpast.
    unfold thread_events, call_events. rewrite Hcall.
    now rewrite (proj1 (Forall_lookup _ calls) Hret t call Hcall).
  - exact (inv_events_completes _ Hbr (length calls) (thread_events_beyond self calls)
             _ c Hinv eq_refl).
Qed.

(** The wrapped handler runs with the lock in hand: once a call is inside a
    handler that never returns, no call that still has to take the lock can
    step. *)
Lemma blocked_in_handler c t0 :
  lock_owner c = Some t0 ->
  rest (threads c t0) = [] ->
  (forall t, t <> t0 ->
     rest (threads c t) = [] \/ exists r, threads c t = mkThread [] (LockAcquire :: r)) ->
  ~ exists c', step c c'.
Proof.
  intros Hlock Hrest Hothers [c' Hstep].
  destruct Hstep as [t p r Ht Hfree | t p r Ht | t p e r Ht He].
  - congruence.
  - destruct (decide (t = t0)) as [->|Hne]; [rewrite Ht in Hrest; discriminate|].
    destruct (Hothers t Hne) as [Hr|[r' Hr]]; rewrite Ht in Hr; simpl in Hr; congruence.
  - destruct (decide (t = t0)) as [->|Hne]; [rewrite Ht in Hrest; discriminate|].
    destruct (Hothers t Hne) as [Hr|[r' Hr]]; rewrite Ht in Hr; simpl in Hr; [congruence|].
    injection Hr as _ -> _. discriminate.
Qed.

End Handler.

(** *** A concrete instance

    Stand-ins for the crypto library, to run the handler on examples: a key
    is its own bytes, the shared secret is the concatenation of the two
    keys, and the tag of a message is the secret followed by the message. *)

Definition demo_bytes_to_public_key (b : bytes) : Result bytes :=
  if decide (b = []) then Raise (LibraryError "ValueError") else Ok b.

Definition demo_generate_shared_key (private_key public_key : bytes) : Result bytes :=
  Ok (private_key ++ public_key).

Definition demo_public_key_to_bytes (public_key : bytes) : bytes := public_key.

Definition demo_verify_hmac (key message hmac_value : bytes) : bool :=
  bool_decide (hmac_value = key ++ message).

Definition demo_SerializeToString (request : Request) (deterministic : bool) : bytes :=
  match request with
  | CreateNodeRequest => []
  | DeleteNodeRequest _ => encode "D"
  | PullTaskInsRequest _ _ => encode "P"
  | PushTaskResRequest _ => encode "R"
  | OtherRequest raw => raw
  end.

(** The server keys are ["s"] and ["S"]; one client key, ["k"], is registered. *)
Definition demo_interceptor : @AuthenticateServerInterceptor bytes bytes :=
  mkInterceptor (encode "s") (encode "S") {[ encode "k" ]}.

Definition demo_handler (request : Request) : Result string := Ok "response".

Definition demo_outcome : Request -> Metadata -> Result string :=
  outcome demo_bytes_to_public_key demo_generate_shared_key demo_public_key_to_bytes
    demo_verify_hmac demo_SerializeToString demo_interceptor demo_handler.

Definition demo_trace : Request -> Metadata -> list Event :=
  trace demo_bytes_to_public_key demo_generate_shared_key demo_public_key_to_bytes
    demo_verify_hmac demo_SerializeToString demo_interceptor demo_handler.

(** ["aw=="] is the base64 of ["k"], ["c2tE"] of ["skD"]. *)
Definition demo_metadata : Metadata :=
  [(_PUBLIC_KEY_HEADER, MStr "aw=="); (_AUTH_TOKEN_HEADER, MStr "c2tE")].

Definition demo_delete : Request := DeleteNodeRequest (State.mkNode 1 false).

Example demo_create_node :
  demo_trace CreateNodeRequest demo_metadata =
  [LockAcquire; SendInitialMetadata [(_PUBLIC_KEY_HEADER, MBytes (encode "Uw=="))];
   HandlerEnter CreateNodeRequest; HandlerExit; LockRelease].
Proof. vm_compute. reflexivity. Qed.

Example demo_pull_wrong_token :
  demo_outcome (PullTaskInsRequest (State.mkNode 1 false) []) demo_metadata
  = Raise access_denied.
Proof. vm_compute. reflexivity. Qed.

Lemma demo_key_registered : encode "k" ∈ client_public_keys demo_interceptor.
Proof. apply elem_of_singleton_2. reflexivity. Defined.

Lemma demo_empty_key_unregistered : [] ∉ client_public_keys demo_interceptor.
Proof. intros H. cbn in H. apply elem_of_singleton in H. discriminate H. Defined.



(** A registered key with an auth-token header that is not base64: the call
    ends with the decoder's exception; nothing is verified, nothing aborted. *)
Definition demo_bad_token : Metadata :=
  [(_PUBLIC_KEY_HEADER, MStr "aw=="); (_AUTH_TOKEN_HEADER, MStr "a")].

Example demo_bad_token_raises :
  demo_outcome demo_delete demo_bad_token = Raise BinasciiError /\
  demo_trace demo_delete demo_bad_token = [LockAcquire; LockRelease].
Proof. vm_compute. split; reflexivity. Qed.



Lemma create_node_sends_server_key_witness :
  demo_trace CreateNodeRequest demo_metadata =
    [LockAcquire; SendInitialMetadata [(_PUBLIC_KEY_HEADER, MBytes (encode "Uw=="))];
     HandlerEnter CreateNodeRequest; HandlerExit; LockRelease] /\
  Base64.urlsafe_b64decode (encode "Uw==") = Some (encode "S") /\
  demo_outcome CreateNodeRequest demo_metadata = Ok "response".
Proof.
  exact (create_node_sends_server_key demo_bytes_to_public_key demo_generate_shared_key
           demo_public_key_to_bytes demo_verify_hmac demo_SerializeToString
           demo_interceptor demo_handler demo_metadata (encode "k")
           eq_refl demo_key_registered).
Defined.

Lemma missing_key_header_denied_witness :
  demo_outcome CreateNodeRequest [(_AUTH_TOKEN_HEADER, MStr "c2tE")] = Raise access_denied.
Proof.
  destruct (missing_key_header_denied demo_bytes_to_public_key demo_generate_shared_key
              demo_public_key_to_bytes demo_verify_hmac demo_SerializeToString
              demo_interceptor demo_handler CreateNodeRequest
              [(_AUTH_TOKEN_HEADER, MStr "c2tE")]) as (_ & _ & H).
  - intros key value Hin. apply list_elem_of_singleton in Hin.
    injection Hin as -> _. discriminate.
  - apply H. exact demo_empty_key_unregistered.
Defined.

(** The wrapped handler of a CreateNode call starts while the lock is held. *)
Lemma handler_entered_with_lock_held :
  ~ handler_outside_lock (demo_trace CreateNodeRequest demo_metadata).
Proof.
  intros H.
  specialize (H [LockAcquire; SendInitialMetadata [(_PUBLIC_KEY_HEADER, MBytes (encode "Uw=="))]]
                CreateNodeRequest [HandlerExit; LockRelease]).
  rewrite demo_create_node in H. specialize (H eq_refl). discriminate H.
Qed.

(** Two threads serving CreateNode calls: thread 0 reaches its handler with
    the lock in hand, while thread 1 has not got past its [LockAcquire]. *)
Definition demo_calls (t : nat) : (Request -> Result string) * Request * Metadata :=
  (demo_handler, CreateNodeRequest, demo_metadata).

Definition demo_initial : Config :=
  initial demo_bytes_to_public_key demo_generate_shared_key demo_public_key_to_bytes
    demo_verify_hmac demo_SerializeToString demo_interceptor demo_calls.

Example demo_thread_in_handler :
  exists c,
    rtc step demo_initial c /\
    in_handler (threads c 0%nat) /\
    lock_owner c = Some 0%nat /\
    past (threads c 1%nat) = [].
Proof.
  eexists. split.
  - eapply rtc_l.
    { eapply (step_acquire _ 0%nat); [vm_compute; reflexivity | reflexivity]. }
    eapply rtc_l.
    { eapply (step_event _ 0%nat); [vm_compute; reflexivity | reflexivity]. }
    eapply rtc_l.
    { eapply (step_event _ 0%nat); [vm_compute; reflexivity | reflexivity]. }
    apply rtc_refl.
  - split; [|split; reflexivity].
    exists [LockAcquire; SendInitialMetadata [(_PUBLIC_KEY_HEADER, MBytes (encode "Uw=="))]],
      CreateNodeRequest.
    vm_compute. reflexivity.
Qed.

Lemma handler_runs_under_lock_witness :
  lock_held [LockAcquire; SendInitialMetadata [(_PUBLIC_KEY_HEADER, MBytes (encode "Uw=="))]]
  = true.
Proof.
  destruct (handler_runs_under_lock (Response := string)
              demo_bytes_to_public_key demo_generate_shared_key
              demo_public_key_to_bytes demo_verify_hmac demo_SerializeToString
              demo_interceptor) as [H _].
  apply (H demo_handler CreateNodeRequest demo_metadata _ CreateNodeRequest
           [HandlerExit; LockRelease]).
  vm_compute. reflexivity.
Defined.

(** *** Further properties: headers and CreateNode *)

Definition value_bytes (value : MetadataValue) : bytes :=
  match value with
  | MStr s => encode s
  | MBytes b => b
  end.

(** X4: when a header occurs several times, the first occurrence is the one
    used; a [str] value is taken as its encoded bytes, a [bytes] value as it
    is. *)
Theorem first_header_wins key_string pre value post :
  (forall key v, (key, v) ∈ pre -> key <> key_string) ->
  _get_value_from_tuples key_string (pre ++ (key_string, value) :: post)
  = value_bytes value.
Proof.
  intros Hpre. unfold _get_value_from_tuples, value_bytes.
  replace (next_value key_string (pre ++ (key_string, value) :: post) (MStr ""))
    with value; [reflexivity|].
  induction pre as [|[key v] pre IH]; simpl.
  - now rewrite bool_decide_eq_true_2.
  - rewrite bool_decide_eq_false_2.
    + apply IH. intros key' v' Hin. apply (Hpre key' v'). now right.
    + apply (Hpre key v). left.
Qed.

Lemma first_header_wins_witness :
  _get_value_from_tuples _PUBLIC_KEY_HEADER
    [(_AUTH_TOKEN_HEADER, MStr "c2tE"); (_PUBLIC_KEY_HEADER, MStr "aw==");
     (_PUBLIC_KEY_HEADER, MBytes [x00])]
  = encode "aw==".
Proof.
  apply (first_header_wins _PUBLIC_KEY_HEADER [(_AUTH_TOKEN_HEADER, MStr "c2tE")]
           (MStr "aw==") [(_PUBLIC_KEY_HEADER, MBytes [x00])]).
  intros key v Hin. apply list_elem_of_singleton in Hin.
  injection Hin as -> _. discriminate.
Defined.

(** X11: a CreateNode request is admitted on the public-key header alone:
    what the call returns and does is the same whatever the other headers
    are and whatever the key conversion, the secret derivation, the HMAC
    verification and the serializer do. *)
Theorem create_node_needs_no_token {PrivateKey PublicKey Response : Type}
    (bytes_to_public_key bytes_to_public_key' : bytes -> Result PublicKey)
    (generate_shared_key generate_shared_key' : PrivateKey -> PublicKey -> Result bytes)
    (public_key_to_bytes : PublicKey -> bytes)
    (verify_hmac verify_hmac' : bytes -> bytes -> bytes -> bool)
    (SerializeToString SerializeToString' : Request -> bool -> bytes)
    (self : @AuthenticateServerInterceptor PrivateKey PublicKey)
    (h : Request -> Result Response) (md md' : Metadata) :
  _get_value_from_tuples _PUBLIC_KEY_HEADER md
    = _get_value_from_tuples _PUBLIC_KEY_HEADER md' ->
  _generic_method_handler bytes_to_public_key generate_shared_key public_key_to_bytes
    verify_hmac SerializeToString self h CreateNodeRequest md []
  = _generic_method_handler bytes_to_public_key' generate_shared_key' public_key_to_bytes
      verify_hmac' SerializeToString' self h CreateNodeRequest md' [].
Proof.
  intros Hkey. rewrite !handler_run, Hkey. reflexivity.
Qed.

Lemma create_node_needs_no_token_witness :
  _generic_method_handler demo_bytes_to_public_key demo_generate_shared_key
    demo_public_key_to_bytes demo_verify_hmac demo_SerializeToString
    demo_interceptor demo_handler CreateNodeRequest demo_metadata []
  = _generic_method_handler (fun _ => Raise (LibraryError "ValueError"))
      demo_generate_shared_key demo_public_key_to_bytes (fun _ _ _ => false)
      demo_SerializeToString demo_interceptor demo_handler CreateNodeRequest
      [(_PUBLIC_KEY_HEADER, MStr "aw==")] [].
Proof.
  apply create_node_needs_no_token. reflexivity.
Defined.

Lemma abort_is_final_witness :
  demo_trace (OtherRequest []) demo_metadata = denied_trace /\
  demo_outcome (OtherRequest []) demo_metadata = Raise access_denied.
Proof.
  destruct (abort_is_final demo_bytes_to_public_key demo_generate_shared_key
              demo_public_key_to_bytes demo_verify_hmac demo_SerializeToString
              demo_interceptor demo_handler (OtherRequest []) demo_metadata
              UNAUTHENTICATED "Access denied!") as (_ & _ & Ht & Ho).
  - vm_compute. apply list_elem_of_In. right. left. reflexivity.
  - split; assumption.
Defined.

Lemma server_key_only_on_create_node_witness :
  CreateNodeRequest = CreateNodeRequest /\
  exists k,
    urlsafe_b64decode (_get_value_from_tuples _PUBLIC_KEY_HEADER demo_metadata) = Ok k /\
    k ∈ client_public_keys demo_interceptor.
Proof.
  destruct (server_key_only_on_create_node demo_bytes_to_public_key
              demo_generate_shared_key demo_public_key_to_bytes demo_verify_hmac
              demo_SerializeToString demo_interceptor demo_handler CreateNodeRequest
              demo_metadata [(_PUBLIC_KEY_HEADER, MBytes (encode "Uw=="))])
    as (Hreq & Hk & _).
  - vm_compute. apply list_elem_of_In. right. left. reflexivity.
  - split; assumption.
Defined.

Lemma encoded_credentials_accepted_witness :
  demo_outcome demo_delete demo_metadata = Ok "response" /\
  HandlerEnter demo_delete ∈ demo_trace demo_delete demo_metadata.
Proof.
  apply (encoded_credentials_accepted demo_bytes_to_public_key demo_generate_shared_key
           demo_public_key_to_bytes demo_verify_hmac demo_SerializeToString
           demo_interceptor demo_handler demo_delete demo_metadata (encode "k")).
  - reflexivity.
  - exact demo_key_registered.
  - right. split; [reflexivity|].
    exists (encode "skD"), (encode "k"), (encode "sk"). repeat split; reflexivity.
Defined.

Lemma missing_auth_token_is_empty_tag_witness :
  demo_outcome demo_delete [(_PUBLIC_KEY_HEADER, MStr "aw==")] = Raise access_denied /\
  demo_trace demo_delete [(_PUBLIC_KEY_HEADER, MStr "aw==")] = denied_trace.
Proof.
  apply (missing_auth_token_is_empty_tag demo_bytes_to_public_key
           demo_generate_shared_key demo_public_key_to_bytes demo_verify_hmac
           demo_SerializeToString demo_interceptor demo_handler demo_delete
           [(_PUBLIC_KEY_HEADER, MStr "aw==")] (encode "k")).
  - reflexivity.
  - reflexivity.
  - exact demo_key_registered.
  - intros key value Hin. apply list_elem_of_singleton in Hin.
    injection Hin as -> _. discriminate.
Defined.

(** Two CreateNode calls whose handlers return, run one after the other. *)
Definition demo_two_calls : list (@Call string) :=
  [mkCall demo_handler CreateNodeRequest demo_metadata true;
   mkCall demo_handler CreateNodeRequest demo_metadata true].

Definition demo_initial_calls : list (@Call string) -> Config :=
  initial_calls demo_bytes_to_public_key demo_generate_shared_key demo_public_key_to_bytes
    demo_verify_hmac demo_SerializeToString demo_interceptor.

Definition demo_schedule : list nat := [0; 0; 0; 0; 0; 1; 1; 1; 1; 1]%nat.

Definition demo_final : Config :=
  default (demo_initial_calls demo_two_calls)
    (run_schedule demo_schedule (demo_initial_calls demo_two_calls)).

Lemma demo_final_reachable : rtc step (demo_initial_calls demo_two_calls) demo_final.
Proof. apply (run_schedule_rtc demo_schedule). vm_compute. reflexivity. Defined.

Lemma demo_final_finished t : rest (threads demo_final t) = [].
Proof. destruct t as [|[|t]]; vm_compute; reflexivity. Defined.

Lemma no_deadlock_witness :
  lock_owner demo_final = None /\
  past (threads demo_final 1%nat) = demo_trace CreateNodeRequest demo_metadata.
Proof.
  destruct (no_deadlock demo_bytes_to_public_key demo_generate_shared_key
              demo_public_key_to_bytes demo_verify_hmac demo_SerializeToString
              demo_interceptor demo_two_calls demo_final) as (_ & H & _).
  - repeat constructor.
  - exact demo_final_reachable.
  - destruct (H demo_final_finished) as [Hfree Hpast]. split; [exact Hfree|].
    exact (Hpast 1%nat _ eq_refl).
Defined.

(** The first call's handler never returns: once it is entered, the second
    call waits for the lock for ever. *)
Example demo_blocked_handler :
  exists c,
    rtc step
      (demo_initial_calls [mkCall demo_handler CreateNodeRequest demo_metadata false;
                           mkCall demo_handler CreateNodeRequest demo_metadata true]) c /\
    in_handler (threads c 0%nat) /\
    rest (threads c 1%nat) <> [] /\
    ~ exists c', step c c'.
Proof.
  destruct (run_schedule [0; 0; 0]%nat
              (demo_initial_calls [mkCall demo_handler CreateNodeRequest demo_metadata false;
                                   mkCall demo_handler CreateNodeRequest demo_metadata true]))
    as [c|] eqn:Hrun; [|vm_compute in Hrun; discriminate Hrun].
  exists c. split; [exact (run_schedule_rtc _ _ _ Hrun)|].
  vm_compute in Hrun. injection Hrun as <-.
  split; [|split].
  - exists [LockAcquire; SendInitialMetadata [(_PUBLIC_KEY_HEADER, MBytes (encode "Uw=="))]],
      CreateNodeRequest.
    reflexivity.
  - discriminate.
  - apply (blocked_in_handler _ 0%nat); [reflexivity|reflexivity|].
    intros t Ht. destruct t as [|[|t]]; [done| |].
    + right. eexists. reflexivity.
    + left. reflexivity.
Qed.

End Interceptor.

(** ** [flwr/driver/driver.py] *)

Module Driver.

Import Grpc.

(** [grpc.RpcError], as far as the driver looks at it: [e.code()]. *)
Record RpcError := mkRpcError { code : StatusCode; details : string }.

Inductive ExceptionClass := RpcError_class | Exception_class.

Inductive exn :=
| AttributeError (type_name attribute : string)
| NameError (name : string)
| TypeError (message : string)
| ValueError (message : string)
| Rpc (e : RpcError).

Inductive Result (A : Type) :=
| Ok (a : A)
| Raise (e : exn).
Arguments Ok {A} a.
Arguments Raise {A} e.

(** The names bound at module level in [driver.py]: its imports and the
    class it defines. *)
Definition module_globals : list string :=
  ["Lock"; "Iterable"; "List"; "Optional"; "Tuple"; "cast"; "RpcError"; "StatusCode";
   "RetryInvoker"; "exponential"; "DEFAULT_SERVER_ADDRESS_DRIVER"; "GrpcDriver";
   "CreateRunRequest"; "GetNodesRequest"; "GetNodesResponse"; "PullTaskResRequest";
   "PullTaskResResponse"; "PushTaskInsRequest"; "PushTaskInsResponse"; "Node";
   "TaskIns"; "TaskRes"; "Driver"].

(** The functions defined in [class Driver]. *)
Definition Driver_methods : list string :=
  ["__init__"; "_get_grpc_driver_and_workload_id"; "get_nodes"; "push_task_ins";
   "pull_task_res"; "__del__"].

Section Client.

(** [flwr.common.retry_invoker] and [flwr.driver.grpc_driver] are outside
    this module: the wait strategies, [RetryInvoker.invoke], the attributes
    of a [GrpcDriver] and the calls it sends. *)
Context {WaitFactory : Type}.
Variable exponential : WaitFactory.

Record RetryInvoker := mkRetryInvoker {
  wait_factory : WaitFactory;
  recoverable_exceptions : ExceptionClass;
  max_tries : option Z;
  max_time : option Z;
  should_giveup : option (RpcError -> bool)
}.

Record GrpcDriver := mkGrpcDriver {
  driver_service_address : string;
  root_certificates : option bytes;
  connected : bool
}.

(** The values held by the attributes of a [Driver]. *)
Inductive Val :=
| VNone
| VInt (z : Z)
| VStr (s : string)
| VBytes (b : bytes)
| VNode (n : State.Node)
| VLock
| VInvoker (i : RetryInvoker)
| VGrpcDriver (g : GrpcDriver)
| VGlobal (name : string).

(** The attributes a [GrpcDriver] has, the responses of the Driver API to
    its calls, and [RetryInvoker.invoke]. *)
Variable GrpcDriver_attributes : list string.
Variable create_workload : Result Z.
Variable grpc_get_nodes : Val -> Result (list State.Node).
Variable grpc_push_task_ins : list State.TaskIns -> Result (list string).
Variable grpc_pull_task_res : Val -> list string -> Result (list State.TaskRes).
Variable invoke : forall {Req Res : Type},
  RetryInvoker -> (Req -> Result Res) -> Req -> Result Res.

(** What a method does outside the object. *)
Inductive Effect :=
| LockAcquire
| LockRelease
| Connect
| Disconnect
| Call (method : string).

(** A [Driver] object is its instance dictionary; [effects] records what
    has been done through it. *)
Record Object := mkObject { attrs : gmap string Val; effects : list Effect }.

Definition DM (A : Type) : Type := Object -> Result A * Object.

#[global] Instance DM_ret : MRet DM := fun A a self => (Ok a, self).

#[global] Instance DM_bind : MBind DM := fun A B f m self =>
  match m self with
  | (Ok a, self') => f a self'
  | (Raise e, self') => (Raise e, self')
  end.

Definition raise {A} (e : exn) : DM A := fun self => (Raise e, self).

Definition lift {A} (r : Result A) : DM A := fun self => (r, self).

Definition effect (e : Effect) : DM unit := fun self =>
  (Ok tt, mkObject (attrs self) (effects self ++ [e])).

(** [self.name = v] *)
Definition setattr (name : string) (v : Val) : DM unit := fun self =>
  (Ok tt, mkObject (<[name := v]> (attrs self)) (effects self)).

(** An attribute of [self] is found in the instance dictionary or, failing
    that, among the functions of the class. *)
Inductive Attribute :=
| Value (v : Val)
| Method (name : string).

Definition getattr (name : string) : DM Attribute := fun self =>
  match attrs self !! name with
  | Some v => (Ok (Value v), self)
  | None =>
      if bool_decide (name ∈ Driver_methods) then (Ok (Method name), self)
      else (Raise (AttributeError "Driver" name), self)
  end.

(** [self.name] where a plain value is expected. *)
Definition getval (name : string) : DM Val :=
  a ← getattr name;
  match a with
  | Value v => mret v
  | Method _ => raise (TypeError "bound method used as a value")
  end.

(** Reading a name that is not a local variable: it is looked up among the
    globals of the module. *)
Definition global (name : string) : DM Val :=
  if bool_decide (name ∈ module_globals) then mret (VGlobal name)
  else raise (NameError name).

(** [g.name] on a [GrpcDriver]. *)
Definition grpc_getattr (name : string) : DM unit :=
  if bool_decide (name ∈ GrpcDriver_attributes) then mret tt
  else raise (AttributeError "GrpcDriver" name).

(** [with self.lock: body] *)
Definition releasing {A} (body : DM A) : DM A := fun self =>
  let '(r, self') := body self in
  (r, mkObject (attrs self') (effects self' ++ [LockRelease])).

Definition with_lock {A} (body : DM A) : DM A :=
  getval "lock";;
  effect LockAcquire;;
  releasing body.

Definition is_None (v : Val) : bool :=
  match v with
  | VNone => true
  | _ => false
  end.

Definition optional_bytes (o : option bytes) : Val :=
  match o with
  | Some b => VBytes b
  | None => VNone
  end.

(** [Driver.__init__] *)
Definition __init__ (driver_service_address : string)
    (root_certificates : option bytes) (invoker : option RetryInvoker) : Object :=
  let err_codes := [UNAVAILABLE] in
  let invoker :=
    match invoker with
    | None =>
        mkRetryInvoker exponential RpcError_class (Some 10) (Some 300)
          (Some (fun e => negb (bool_decide (code e ∈ err_codes))))
    | Some invoker => invoker
    end in
  mkObject
    (<["invoker" := VInvoker invoker]>
       (<["lock" := VLock]>
          (<["node" := VNode (State.mkNode 0 true)]>
             (<["run_id" := VNone]>
                (<["grpc_driver" := VNone]>
                   (<["root_certificates" := optional_bytes root_certificates]>
                      (<["addr" := VStr driver_service_address]> ∅)))))))
    [].

(** [Driver._get_grpc_driver_and_workload_id] *)
Definition _get_grpc_driver_and_workload_id : DM (Val * Val) :=
  with_lock (
    grpc_driver ← getval "grpc_driver";
    missing ←
      (if is_None grpc_driver then mret true
       else workload_id ← getval "workload_id"; mret (is_None workload_id));
    if (missing : bool) then
      addr ← getval "addr";
      certs ← getval "root_certificates";
      global "GrpcDriver";;
      setattr "grpc_driver"
        (VGrpcDriver
           (mkGrpcDriver
              (match addr with VStr s => s | _ => "" end)
              (match certs with VBytes b => Some b | _ => None end)
              false));;
      g ← getval "grpc_driver";
      grpc_getattr "connect";;
      effect Connect;;
      setattr "grpc_driver"
        (match g with
         | VGrpcDriver g =>
             VGrpcDriver (mkGrpcDriver (driver_service_address g) (root_certificates g) true)
         | v => v
         end);;
      grpc_getattr "create_workload";;
      global "CreateWorkloadRequest";;
      effect (Call "create_workload");;
      workload_id ← lift create_workload;
      setattr "workload_id" (VInt workload_id)
    else mret tt);;
  grpc_driver ← getval "grpc_driver";
  run_id ← getval "run_id";
  mret (grpc_driver, run_id).

(** Calling the attribute [a] of [self] without arguments, where a pair is
    expected. *)
Definition call_for_pair (a : Attribute) : DM (Val * Val) :=
  match a with
  | Method "_get_grpc_driver_and_workload_id" => _get_grpc_driver_and_workload_id
  | Method _ => raise (TypeError "missing arguments or not a pair")
  | Value _ => raise (TypeError "object is not callable")
  end.

Definition the_invoker : DM RetryInvoker :=
  v ← getval "invoker";
  match v with
  | VInvoker i => mret i
  | _ => raise (AttributeError "object" "invoke")
  end.

(** The range of a protobuf [sint64] field. *)
Definition sint64_min : Z := - 2 ^ 63.
Definition sint64_max : Z := 2 ^ 63 - 1.

(** [task_ins.run_id = run_id]: the field is a [sint64]; an integer outside
    its range is refused with [ValueError], a value that is not an integer
    with [TypeError]. *)
Definition set_run_id (run_id : Val) (task_ins : State.TaskIns) : DM State.TaskIns :=
  match run_id with
  | VInt z =>
      if (sint64_min <=? z) && (z <=? sint64_max) then
        mret (State.mkTaskIns (State.ins_task_id task_ins) (State.ins_group_id task_ins)
                z (State.ins_task task_ins))
      else raise (ValueError "Value out of range")
  | _ => raise (TypeError "run_id")
  end.

Fixpoint stamp (run_id : Val) (task_ins_list : list State.TaskIns)
    : DM (list State.TaskIns) :=
  match task_ins_list with
  | [] => mret []
  | task_ins :: rest =>
      task_ins' ← set_run_id run_id task_ins;
      rest' ← stamp run_id rest;
      mret (task_ins' :: rest')
  end.

(** [Driver.push_task_ins] *)
Definition push_task_ins (task_ins_list : list State.TaskIns) : DM (list string) :=
  method ← getattr "_get_grpc_driver_and_run_id";
  '(grpc_driver, run_id) ← call_for_pair method;
  task_ins_list ← stamp run_id task_ins_list;
  global "PushTaskInsRequest";;
  with_lock (
    invoker ← the_invoker;
    grpc_getattr "push_task_ins";;
    effect (Call "push_task_ins");;
    lift (invoke invoker grpc_push_task_ins task_ins_list)).

(** [Driver.get_nodes] *)
Definition get_nodes : DM (list State.Node) :=
  method ← getattr "_get_grpc_driver_and_run_id";
  '(grpc_driver, run_id) ← call_for_pair method;
  global "GetNodesRequest";;
  workload_id ← global "workload_id";
  with_lock (
    invoker ← the_invoker;
    grpc_getattr "get_nodes";;
    effect (Call "get_nodes");;
    lift (invoke invoker grpc_get_nodes workload_id)).

(** [Driver.pull_task_res] *)
Definition pull_task_res (task_ids : list string) : DM (list State.TaskRes) :=
  method ← getattr "_get_grpc_driver_and_run_id";
  '(grpc_driver, _) ← call_for_pair method;
  global "PullTaskResRequest";;
  node ← getval "node";
  with_lock (
    invoker ← the_invoker;
    grpc_getattr "pull_task_res";;
    effect (Call "pull_task_res");;
    lift (invoke invoker (grpc_pull_task_res node) task_ids)).

(** The [GrpcDriver] held by [v] after [disconnect()]. *)
Definition disconnected (v : Val) : Val :=
  match v with
  | VGrpcDriver g =>
      VGrpcDriver (mkGrpcDriver (driver_service_address g) (root_certificates g) false)
  | v => v
  end.

(** [Driver.__del__] *)
Definition __del__ : DM unit :=
  grpc_driver ← getval "grpc_driver";
  if is_None grpc_driver then mret tt
  else
    with_lock (
      g ← getval "grpc_driver";
      grpc_getattr "disconnect";;
      effect Disconnect;;
      setattr "grpc_driver" (disconnected g)).

(** *** Properties *)

Ltac run_method :=
  unfold push_task_ins, _get_grpc_driver_and_workload_id, with_lock, releasing, getval,
    getattr,
    setattr, effect, global, grpc_getattr, call_for_pair, raise, lift;
  unfold mbind, DM_bind, mret, DM_ret; simpl.

Lemma init_has_no_run_id_method addr certs invoker :
  attrs (__init__ addr certs invoker) !! "_get_grpc_driver_and_run_id" = None.
Proof. reflexivity. Qed.

Lemma run_id_method_undefined : "_get_grpc_driver_and_run_id" ∉ Driver_methods.
Proof. unfold Driver_methods. rewrite !elem_of_cons, elem_of_nil. naive_solver. Qed.

(** C6: on a freshly constructed [Driver], [push_task_ins] raises
    [AttributeError] at its first statement: the class defines
    [_get_grpc_driver_and_workload_id], not the [_get_grpc_driver_and_run_id]
    the method calls.  Nothing is connected, stamped or sent. *)
Theorem push_task_ins_raises addr certs invoker task_ins_list :
  push_task_ins task_ins_list (__init__ addr certs invoker) =
  (Raise (AttributeError "Driver" "_get_grpc_driver_and_run_id"),
   __init__ addr certs invoker).
Proof.
  unfold push_task_ins, getattr. unfold mbind, DM_bind.
  rewrite init_has_no_run_id_method.
  rewrite (bool_decide_eq_false_2 _ run_id_method_undefined). reflexivity.
Qed.

(** The two other callers stop at the same place. *)
Lemma get_nodes_raises addr certs invoker :
  fst (get_nodes (__init__ addr certs invoker)) =
  Raise (AttributeError "Driver" "_get_grpc_driver_and_run_id").
Proof.
  unfold get_nodes, getattr. unfold mbind, DM_bind.
  rewrite init_has_no_run_id_method.
  rewrite (bool_decide_eq_false_2 _ run_id_method_undefined). reflexivity.
Qed.

Lemma pull_task_res_raises addr certs invoker task_ids :
  fst (pull_task_res task_ids (__init__ addr certs invoker)) =
  Raise (AttributeError "Driver" "_get_grpc_driver_and_run_id").
Proof.
  unfold pull_task_res, getattr. unfold mbind, DM_bind.
  rewrite init_has_no_run_id_method.
  rewrite (bool_decide_eq_false_2 _ run_id_method_undefined). reflexivity.
Qed.

(** The method the class does define never returns on a fresh [Driver]
    either: after connecting it stops at the unbound name
    [CreateWorkloadRequest] (or at a missing [GrpcDriver] attribute), and no
    run identifier is cached. *)
Lemma workload_id_method_raises addr certs invoker :
  exists e self',
    _get_grpc_driver_and_workload_id (__init__ addr certs invoker) = (Raise e, self') /\
    attrs self' !! "run_id" = Some VNone /\
    attrs self' !! "workload_id" = None.
Proof.
  run_method.
  destruct (bool_decide ("connect" ∈ GrpcDriver_attributes)); simpl;
    [|do 2 eexists; split; [reflexivity|]; split; reflexivity].
  destruct (bool_decide ("create_workload" ∈ GrpcDriver_attributes)); simpl;
    do 2 eexists; (split; [reflexivity|]); split; reflexivity.
Qed.

(** C7: without an explicit invoker the constructor builds a [RetryInvoker]
    with the exponential wait strategy, for [RpcError], with at most 10
    tries and 300 seconds, that gives up exactly on the errors whose status
    code is not [UNAVAILABLE]. *)
Theorem default_invoker addr certs :
  exists invoker giveup,
    attrs (__init__ addr certs None) !! "invoker" = Some (VInvoker invoker) /\
    wait_factory invoker = exponential /\
    recoverable_exceptions invoker = RpcError_class /\
    max_tries invoker = Some 10 /\
    max_time invoker = Some 300 /\
    should_giveup invoker = Some giveup /\
    forall e, giveup e = true <-> code e <> UNAVAILABLE.
Proof.
  do 2 eexists. split; [reflexivity|]. repeat (split; [reflexivity|]).
  intros e. simpl. rewrite negb_true_iff, bool_decide_eq_false.
  rewrite list_elem_of_singleton. reflexivity.
Qed.

(** An invoker given to the constructor is kept as it is. *)
Lemma explicit_invoker addr certs invoker :
  attrs (__init__ addr certs (Some invoker)) !! "invoker" = Some (VInvoker invoker).
Proof. reflexivity. Qed.


(** *** Further properties: the object over any sequence of calls *)

(** The lock is held after the effects [es]. *)
Definition lock_held (es : list Effect) : bool :=
  foldl (fun held e =>
           match e with
           | LockAcquire => true
           | LockRelease => false
           | _ => held
           end) false es.

Definition is_call (e : Effect) : bool :=
  match e with
  | Call _ => true
  | _ => false
  end.

(** The methods of the class, as a caller can invoke them. *)
Inductive MethodCall :=
| call_get_nodes
| call_push_task_ins (task_ins_list : list State.TaskIns)
| call_pull_task_res (task_ids : list string)
| call_get_grpc_driver_and_workload_id
| call_del.

Definition raised {A} (r : Result A) : option exn :=
  match r with
  | Ok _ => None
  | Raise e => Some e
  end.

(** One method call: the exception it raised, if any, and the object after it. *)
Definition invoke_method (c : MethodCall) (self : Object) : option exn * Object :=
  match c with
  | call_get_nodes => let '(r, self') := get_nodes self in (raised r, self')
  | call_push_task_ins l => let '(r, self') := push_task_ins l self in (raised r, self')
  | call_pull_task_res ids => let '(r, self') := pull_task_res ids self in (raised r, self')
  | call_get_grpc_driver_and_workload_id =>
      let '(r, self') := _get_grpc_driver_and_workload_id self in (raised r, self')
  | call_del => let '(r, self') := __del__ self in (raised r, self')
  end.

Fixpoint invoke_methods (cs : list MethodCall) (self : Object)
    : list (option exn) * Object :=
  match cs with
  | [] => ([], self)
  | c :: cs =>
      let '(r, self') := invoke_method c self in
      let '(rs, self'') := invoke_methods cs self' in
      (r :: rs, self'')
  end.

(** How a call ends on an object that no method can bring past the missing
    [_get_grpc_driver_and_run_id]. *)
Definition fails_as (c : MethodCall) (r : option exn) : Prop :=
  match c with
  | call_get_nodes | call_push_task_ins _ | call_pull_task_res _ =>
      r = Some (AttributeError "Driver" "_get_grpc_driver_and_run_id")
  | call_get_grpc_driver_and_workload_id => r <> None
  | call_del => True
  end.

(** What every [Driver] object satisfies, whatever has been called on it. *)
Definition driver_inv (self : Object) : Prop :=
  attrs self !! "_get_grpc_driver_and_run_id" = None /\
  attrs self !! "workload_id" = None /\
  attrs self !! "run_id" = Some VNone /\
  forallb (fun e => negb (is_call e)) (effects self) = true /\
  lock_held (effects self) = false.

Lemma driver_inv_init addr certs invoker : driver_inv (__init__ addr certs invoker).
Proof. repeat split. Qed.

Lemma forallb_snoc {A} (f : A -> bool) l x :
  forallb f (l ++ [x]) = forallb f l && f x.
Proof. rewrite forallb_app. simpl. now rewrite andb_true_r. Qed.

Lemma lock_held_snoc es e :
  lock_held (es ++ [e]) =
  match e with
  | LockAcquire => true
  | LockRelease => false
  | _ => lock_held es
  end.
Proof. unfold lock_held. now rewrite foldl_app. Qed.

(** One step of a method on a symbolic object: a lookup in the instance
    dictionary, a test of a value or of a [GrpcDriver] attribute. *)
Ltac exec_step :=
  first
    [ rewrite lookup_insert_eq
    | rewrite lookup_insert_ne by done
    | match goal with
      | H : attrs ?s !! ?k = _ |- context [attrs ?s !! ?k] => rewrite H
      | |- context [attrs ?s !! ?k] => destruct (attrs s !! k) eqn:?
      | |- context [is_None ?v] => destruct v
      | |- context [bool_decide (?n ∈ GrpcDriver_attributes)] =>
          destruct (bool_decide (n ∈ GrpcDriver_attributes)) eqn:?
      end ];
  simpl.

Ltac inv_post :=
  unfold driver_inv; simpl;
  rewrite ?lookup_insert_ne by done;
  rewrite ?forallb_snoc, ?lock_held_snoc; simpl;
  rewrite ?andb_true_r; auto.

Lemma workload_id_method_inv self :
  driver_inv self ->
  exists e self',
    _get_grpc_driver_and_workload_id self = (Raise e, self') /\ driver_inv self'.
Proof.
  intros (Hm & Hw & Hr & Hc & Hl). run_method.
  repeat exec_step. all: do 2 eexists; (split; [reflexivity|]); inv_post.
Qed.

Lemma del_inv self :
  driver_inv self -> driver_inv (snd (__del__ self)).
Proof.
  intros (Hm & Hw & Hr & Hc & Hl). unfold __del__. run_method.
  repeat exec_step. all: inv_post.
Qed.

Lemma api_call_inv {A} (rest : Attribute -> DM A) self :
  driver_inv self ->
  (method ← getattr "_get_grpc_driver_and_run_id"; rest method) self =
  (Raise (AttributeError "Driver" "_get_grpc_driver_and_run_id"), self).
Proof.
  intros (Hm & _). unfold getattr. unfold mbind, DM_bind. rewrite Hm.
  now rewrite (bool_decide_eq_false_2 _ run_id_method_undefined).
Qed.

Lemma invoke_method_inv c self :
  driver_inv self ->
  fails_as c (fst (invoke_method c self)) /\ driver_inv (snd (invoke_method c self)).
Proof.
  intros Hinv. destruct c; simpl.
  - unfold get_nodes. now rewrite api_call_inv.
  - unfold push_task_ins. now rewrite api_call_inv.
  - unfold pull_task_res. now rewrite api_call_inv.
  - destruct (workload_id_method_inv self Hinv) as (e & self' & -> & Hinv').
    simpl. split; [discriminate|done].
  - pose proof (del_inv self Hinv) as Hinv'.
    destruct (__del__ self) as [r self']. simpl in *. done.
Qed.

(** X12: whatever sequence of methods is called on a [Driver], from its
    construction on: every call of [get_nodes], [push_task_ins] and
    [pull_task_res] raises [AttributeError] for the missing
    [_get_grpc_driver_and_run_id], every call of
    [_get_grpc_driver_and_workload_id] raises, no request is ever sent to
    the Driver API, no run identifier is ever cached, and the lock is left
    free. *)
Theorem driver_never_reaches_the_api addr certs invoker cs :
  Forall2 fails_as cs (fst (invoke_methods cs (__init__ addr certs invoker))) /\
  forallb (fun e => negb (is_call e))
    (effects (snd (invoke_methods cs (__init__ addr certs invoker)))) = true /\
  attrs (snd (invoke_methods cs (__init__ addr certs invoker))) !! "run_id" = Some VNone /\
  lock_held (effects (snd (invoke_methods cs (__init__ addr certs invoker)))) = false.
Proof.
  assert (H : forall cs self, driver_inv self ->
            Forall2 fails_as cs (fst (invoke_methods cs self)) /\
            driver_inv (snd (invoke_methods cs self))).
  { clear cs. induction cs as [|c cs IH]; intros self Hinv; simpl.
    - split; [constructor|done].
    - destruct (invoke_method_inv c self Hinv) as [Hc Hinv'].
      destruct (invoke_method c self) as [r self']. simpl in *.
      destruct (IH self' Hinv') as [Hcs Hinv''].
      destruct (invoke_methods cs self') as [rs self'']. simpl in *.
      split; [now constructor|done]. }
  destruct (H cs _ (driver_inv_init addr certs invoker)) as [Hcs (_ & _ & Hr & Hc & Hl)].
  done.
Qed.

(** X13: [__del__] on a [Driver] that never connected does nothing: no
    lock taken, nothing disconnected, no exception. *)
Theorem del_without_connection self :
  attrs self !! "grpc_driver" = Some VNone ->
  __del__ self = (Ok tt, self).
Proof. intros H. unfold __del__. run_method. rewrite H. reflexivity. Qed.

(** X14: the failed attempt to connect leaves a connected [GrpcDriver] in
    the object, with the lock released; [__del__] then disconnects it under
    the lock and returns. *)
Theorem failed_attempt_then_del addr certs invoker :
  "connect" ∈ GrpcDriver_attributes ->
  "disconnect" ∈ GrpcDriver_attributes ->
  let self1 := snd (_get_grpc_driver_and_workload_id (__init__ addr certs invoker)) in
  attrs self1 !! "grpc_driver" = Some (VGrpcDriver (mkGrpcDriver addr certs true)) /\
  effects self1 = [LockAcquire; Connect; LockRelease] /\
  fst (__del__ self1) = Ok tt /\
  effects (snd (__del__ self1)) =
    [LockAcquire; Connect; LockRelease; LockAcquire; Disconnect; LockRelease].
Proof.
  intros Hc Hd. unfold __del__. run_method.
  rewrite (bool_decide_eq_true_2 _ Hc). simpl.
  destruct (bool_decide ("create_workload" ∈ GrpcDriver_attributes)); simpl;
    rewrite (bool_decide_eq_true_2 _ Hd); simpl;
    destruct certs; repeat split.
Qed.

(** X17: a second attempt does not reconnect: with a [GrpcDriver] left in
    the object by the first attempt, [_get_grpc_driver_and_workload_id]
    stops at the attribute [workload_id], which no code has set, after
    taking and releasing the lock. *)
Theorem second_attempt_does_not_reconnect addr certs invoker :
  "connect" ∈ GrpcDriver_attributes ->
  let self1 := snd (_get_grpc_driver_and_workload_id (__init__ addr certs invoker)) in
  fst (_get_grpc_driver_and_workload_id self1)
    = Raise (AttributeError "Driver" "workload_id") /\
  effects (snd (_get_grpc_driver_and_workload_id self1))
    = [LockAcquire; Connect; LockRelease; LockAcquire; LockRelease] /\
  attrs (snd (_get_grpc_driver_and_workload_id self1)) = attrs self1.
Proof.
  intros Hc. run_method. rewrite (bool_decide_eq_true_2 _ Hc). simpl.
  destruct (bool_decide ("create_workload" ∈ GrpcDriver_attributes)); simpl;
    repeat split.
Qed.

Definition with_run_id (z : Z) (task_ins : State.TaskIns) : State.TaskIns :=
  State.mkTaskIns (State.ins_task_id task_ins) (State.ins_group_id task_ins) z
    (State.ins_task task_ins).

(** X15: the stamping loop of [push_task_ins], given an integer run
    identifier in the range of the [sint64] field, gives every instruction
    of the list that identifier, in order, and changes neither another
    field of an instruction nor the [Driver]; given an integer outside the
    range and a list that is not empty, it raises [ValueError] at the first
    instruction. *)
Theorem stamp_sets_every_run_id z task_ins_list self :
  (sint64_min <= z <= sint64_max ->
   stamp (VInt z) task_ins_list self = (Ok (map (with_run_id z) task_ins_list), self)) /\
  (~ (sint64_min <= z <= sint64_max) -> task_ins_list <> [] ->
   stamp (VInt z) task_ins_list self = (Raise (ValueError "Value out of range"), self)).
Proof.
  split.
  - intros Hz.
    assert (Hr : (sint64_min <=? z) && (z <=? sint64_max) = true).
    { apply andb_true_iff. split; apply Z.leb_le; lia. }
    induction task_ins_list as [|task_ins rest IH]; [reflexivity|].
    simpl. unfold mbind, DM_bind, mret, DM_ret. rewrite Hr. simpl. now rewrite IH.
  - intros Hz Hne. destruct task_ins_list as [|task_ins rest]; [done|].
    assert (Hr : (sint64_min <=? z) && (z <=? sint64_max) = false).
    { apply andb_false_iff.
      destruct (Z.leb_spec sint64_min z); [|by left].
      destruct (Z.leb_spec z sint64_max); [lia|by right]. }
    simpl. unfold mbind, DM_bind. now rewrite Hr.
Qed.

End Client.

(** *** A concrete instance

    A [GrpcDriver] with the methods of the run-based Driver API, and one
    wait strategy. *)

Definition demo_attributes : list string :=
  ["connect"; "disconnect"; "create_run"; "get_nodes"; "push_task_ins"; "pull_task_res"].

Definition demo_driver : Object := __init__ tt "[::]:9091" None None.

Lemma stamp_sets_every_run_id_witness :
  stamp (WaitFactory := unit) (VInt 5)
    [State.mkTaskIns "" "" 0 (State.mkTask None (State.mkNode 0 true) "" "" "" [] [])]
    demo_driver
  = (Ok [State.mkTaskIns "" "" 5 (State.mkTask None (State.mkNode 0 true) "" "" "" [] [])],
     demo_driver).
Proof.
  apply (stamp_sets_every_run_id (WaitFactory := unit) 5). unfold sint64_min, sint64_max. lia.
Defined.

Lemma del_without_connection_witness :
  __del__ demo_attributes demo_driver = (Ok tt, demo_driver).
Proof. apply del_without_connection. reflexivity. Defined.

Lemma failed_attempt_then_del_witness :
  effects
    (snd (__del__ demo_attributes
            (snd (_get_grpc_driver_and_workload_id demo_attributes (Ok 1) demo_driver))))
  = [LockAcquire; Connect; LockRelease; LockAcquire; Disconnect; LockRelease].
Proof.
  apply (failed_attempt_then_del tt demo_attributes (Ok 1) "[::]:9091" None None).
  - apply list_elem_of_In. left. reflexivity.
  - apply list_elem_of_In. right. left. reflexivity.
Defined.

Lemma second_attempt_does_not_reconnect_witness :
  fst (_get_grpc_driver_and_workload_id demo_attributes (Ok 1)
         (snd (_get_grpc_driver_and_workload_id demo_attributes (Ok 1) demo_driver)))
  = Raise (AttributeError "Driver" "workload_id").
Proof.
  apply (second_attempt_does_not_reconnect tt demo_attributes (Ok 1) "[::]:9091" None None).
  apply list_elem_of_In. left. reflexivity.
Defined.

(** Connecting is tried, [push_task_ins] is called, the object is
    destroyed: three exceptions, and nothing sent. *)
Example demo_session :
  fst (invoke_methods demo_attributes (Ok 1)
         (fun _ => Ok []) (fun _ => Ok []) (fun _ _ => Ok []) (fun _ _ _ f x => f x)
         [call_get_grpc_driver_and_workload_id; call_push_task_ins []; call_del]
         demo_driver)
  = [Some (AttributeError "GrpcDriver" "create_workload");
     Some (AttributeError "Driver" "_get_grpc_driver_and_run_id");
     None].
Proof. vm_compute. reflexivity. Qed.

End Driver.

(** ** The task store behind the abstract [State] class *)

Module TaskStore.

Import State.

(** The stored instructions, oldest first. *)
Abbreviation Store := (list TaskIns).

Definition with_delivered_at (now : string) (t : Task) : Task :=
  mkTask (producer t) (consumer t) (created_at t) now (ttl t) (ancestry t) (payload t).

Definition deliver (now : string) (task_ins : TaskIns) : TaskIns :=
  mkTaskIns (ins_task_id task_ins) (ins_group_id task_ins) (ins_run_id task_ins)
    (with_delivered_at now (ins_task task_ins)).

(** Modelled from the spec: the implementation of [State.store_task_ins] is
    missing (the source only declares the abstract method).  The
    instruction is validated; a valid one gets the fresh identifier
    [task_id], has its [delivered_at] cleared, is persisted, and the
    identifier is returned; an invalid one is rejected and nothing changes. *)
Definition store_task_ins (store : Store) (task_id : string) (task_ins : TaskIns)
    : option string * Store :=
  if is_valid_task (MsgTaskIns task_ins) then
    (Some task_id,
     store ++ [mkTaskIns task_id (ins_group_id task_ins) (ins_run_id task_ins)
                 (with_delivered_at "" (ins_task task_ins))])
  else (None, store).

(** Modelled from the spec: the filter of [State.get_task_ins], whose
    implementation is missing.  With a [node_id], the undelivered
    instructions whose consumer is that non-anonymous node; without one, the
    undelivered instructions addressed to the anonymous consumer
    ([node_id] 0). *)
Definition eligible (node_id : option Z) (task_ins : TaskIns) : bool :=
  let t := ins_task task_ins in
  match node_id with
  | Some n =>
      (State.node_id (consumer t) =? n) && negb (anonymous (consumer t))
      && bool_decide (delivered_at t = "")
  | None =>
      (State.node_id (consumer t) =? 0) && anonymous (consumer t)
      && bool_decide (delivered_at t = "")
  end.

(** Modelled from the spec: [State.get_task_ins], whose implementation is
    missing.  At most [limit] eligible instructions are returned, and each
    one returned has its [delivered_at] set to the current time [now] in the
    store as part of the call.  The result is the pair of the returned
    instructions and the store after the call. *)
Fixpoint get_task_ins_from (store : Store) (node_id : option Z)
    (limit : option nat) (now : string) : list TaskIns * Store :=
  match store with
  | [] => ([], [])
  | task_ins :: rest =>
      if eligible node_id task_ins then
        match limit with
        | Some O => ([], store)
        | Some (S n) =>
            let '(result, rest') := get_task_ins_from rest node_id (Some n) now in
            (deliver now task_ins :: result, deliver now task_ins :: rest')
        | None =>
            let '(result, rest') := get_task_ins_from rest node_id None now in
            (deliver now task_ins :: result, deliver now task_ins :: rest')
        end
      else
        let '(result, rest') := get_task_ins_from rest node_id limit now in
        (result, task_ins :: rest')
  end.

(** Modelled from the spec: the entry point of [State.get_task_ins]; a
    [limit], when given, is a positive integer bounding the result count. *)
Definition get_task_ins (store : Store) (node_id : option Z)
    (limit : option positive) (now : string) : list TaskIns * Store :=
  get_task_ins_from store node_id (option_map Pos.to_nat limit) now.

(** A sequence of calls on the store. *)
Inductive Op :=
| StoreTaskIns (task_id : string) (task_ins : TaskIns)
| GetTaskIns (node_id : option Z) (limit : option positive) (now : string).

(** The instructions returned by the [get_task_ins] calls of [ops], in
    order, and the store at the end. *)
Fixpoint run (ops : list Op) (store : Store) : list TaskIns * Store :=
  match ops with
  | [] => ([], store)
  | StoreTaskIns task_id task_ins :: ops =>
      run ops (snd (store_task_ins store task_id task_ins))
  | GetTaskIns node_id limit now :: ops =>
      let '(result, store') := get_task_ins store node_id limit now in
      let '(results, store'') := run ops store' in
      (result ++ results, store'')
  end.

(** The identifiers handed out by [ops] are fresh: pairwise distinct and
    not in the store already. *)
Fixpoint fresh_ids (ops : list Op) (used : list string) : Prop :=
  match ops with
  | [] => True
  | StoreTaskIns task_id _ :: ops => (task_id ∉ used) /\ fresh_ids ops (task_id :: used)
  | GetTaskIns _ _ _ :: ops => fresh_ids ops used
  end.

(** The clock never reads as the empty string. *)
Fixpoint clock_set (ops : list Op) : Prop :=
  match ops with
  | [] => True
  | StoreTaskIns _ _ :: ops => clock_set ops
  | GetTaskIns _ _ now :: ops => now <> "" /\ clock_set ops
  end.

Definition ids (l : list TaskIns) : list string := map ins_task_id l.

Definition undelivered (store : Store) : list string :=
  ids (filter (fun t => delivered_at (ins_task t) = "") store).


(** *** Properties *)

Lemma undelivered_cons t store :
  undelivered (t :: store) =
  if decide (delivered_at (ins_task t) = "") then ins_task_id t :: undelivered store
  else undelivered store.
Proof.
  unfold undelivered, ids. rewrite filter_cons.
  destruct (decide (delivered_at (ins_task t) = "")); reflexivity.
Qed.

Lemma undelivered_subseteq store : undelivered store ⊆ ids store.
Proof.
  induction store as [|t store IH]; [done|].
  rewrite undelivered_cons. simpl. destruct (decide _); set_solver.
Qed.

Lemma eligible_undelivered node_id t :
  eligible node_id t = true -> delivered_at (ins_task t) = "".
Proof.
  unfold eligible. destruct node_id; rewrite !andb_true_iff, bool_decide_eq_true; tauto.
Qed.

Lemma get_task_ins_from_spec store node_id limit now result store' :
  get_task_ins_from store node_id limit now = (result, store') ->
  ids store' = ids store /\
  ids result ⊆ undelivered store /\
  undelivered store' ⊆ undelivered store /\
  sublist (ids result) (ids store) /\
  (forall t, t ∈ result -> delivered_at (ins_task t) = now /\ t ∈ store').
Proof.
  revert limit result store'.
  induction store as [|t store IH]; intros limit result store' Hget; simpl in Hget.
  - injection Hget as <- <-. do 4 (split; [done|]). intros x Hx. set_solver.
  - destruct (eligible node_id t) eqn:Hel.
    + apply eligible_undelivered in Hel as Hund.
      assert (Hpick : forall lim r0 s0,
                get_task_ins_from store node_id lim now = (r0, s0) ->
                result = deliver now t :: r0 -> store' = deliver now t :: s0 ->
                ids store' = ids (t :: store) /\
                ids result ⊆ undelivered (t :: store) /\
                undelivered store' ⊆ undelivered (t :: store) /\
                sublist (ids result) (ids (t :: store)) /\
                (forall t0, t0 ∈ result -> delivered_at (ins_task t0) = now /\ t0 ∈ store')).
      { intros lim r0 s0 H0 -> ->. destruct (IH _ _ _ H0) as (Hi & Hr & Hu & Hs & Hd).
        rewrite !undelivered_cons. destruct (decide _) as [_|?]; [|done]. simpl.
        split; [now rewrite Hi|]. split; [set_solver|]. split.
        { destruct (decide _); set_solver. }
        split; [now constructor|].
        intros t0 [->|Ht0]%elem_of_cons; [split; [done|left]|].
        destruct (Hd _ Ht0). split; [done|now right]. }
      destruct limit as [[|n]|].
      * injection Hget as <- <-. split; [done|]. split; [set_solver|].
        split; [done|]. split; [apply sublist_nil_l|]. intros x Hx. set_solver.
      * destruct (get_task_ins_from store node_id (Some n) now) as [r0 s0] eqn:H0.
        injection Hget as <- <-. eapply Hpick; eauto.
      * destruct (get_task_ins_from store node_id None now) as [r0 s0] eqn:H0.
        injection Hget as <- <-. eapply Hpick; eauto.
    + destruct (get_task_ins_from store node_id limit now) as [r0 s0] eqn:H0.
      injection Hget as <- <-. destruct (IH _ _ _ H0) as (Hi & Hr & Hu & Hs & Hd).
      rewrite !undelivered_cons. simpl. split; [now rewrite Hi|].
      split; [destruct (decide _); set_solver|].
      split; [destruct (decide _); set_solver|].
      split; [now constructor|].
      intros t0 Ht0. destruct (Hd _ Ht0). split; [done|now right].
Qed.

(** Once returned, an identifier is no longer among the undelivered ones. *)
Lemma get_task_ins_from_delivered store node_id limit now result store' :
  now <> "" -> NoDup (ids store) ->
  get_task_ins_from store node_id limit now = (result, store') ->
  forall id, id ∈ ids result -> id ∉ undelivered store'.
Proof.
  intros Hnow. revert limit result store'.
  induction store as [|t store IH]; intros limit result store' Hnd Hget; simpl in Hget.
  - injection Hget as <- <-. set_solver.
  - simpl in Hnd. apply NoDup_cons in Hnd as [Hnt Hnd].
    assert (Hpick : forall lim r0 s0,
              get_task_ins_from store node_id lim now = (r0, s0) ->
              result = deliver now t :: r0 -> store' = deliver now t :: s0 ->
              forall id, id ∈ ids result -> id ∉ undelivered store').
    { intros lim r0 s0 H0 -> -> id Hid.
      destruct (get_task_ins_from_spec _ _ _ _ _ _ H0) as (Hi & Hr & Hu & _ & _).
      rewrite undelivered_cons. simpl. destruct (decide (now = "")); [done|].
      simpl in Hid. apply elem_of_cons in Hid as [->|Hid].
      - intros Hin. apply undelivered_subseteq in Hin. rewrite Hi in Hin. done.
      - eapply IH; eauto. }
    destruct (eligible node_id t) eqn:Hel.
    + destruct limit as [[|n]|].
      * injection Hget as <- <-. set_solver.
      * destruct (get_task_ins_from store node_id (Some n) now) as [r0 s0] eqn:H0.
        injection Hget as <- <-. eapply Hpick; eauto.
      * destruct (get_task_ins_from store node_id None now) as [r0 s0] eqn:H0.
        injection Hget as <- <-. eapply Hpick; eauto.
    + destruct (get_task_ins_from store node_id limit now) as [r0 s0] eqn:H0.
      injection Hget as <- <-. intros id Hid.
      destruct (get_task_ins_from_spec _ _ _ _ _ _ H0) as (Hi & Hr & Hu & _ & _).
      rewrite undelivered_cons. simpl.
      assert (id <> ins_task_id t).
      { intros ->. apply Hnt. apply undelivered_subseteq. set_solver. }
      destruct (decide _); [|eapply IH; eauto].
      rewrite not_elem_of_cons. split; [done|]. eapply IH; eauto.
Qed.

Lemma ids_app l1 l2 : ids (l1 ++ l2) = ids l1 ++ ids l2.
Proof. unfold ids. apply map_app. Qed.

Lemma undelivered_app l1 l2 : undelivered (l1 ++ l2) = undelivered l1 ++ undelivered l2.
Proof. unfold undelivered. now rewrite filter_app, ids_app. Qed.

Lemma delivered_not_undelivered store t :
  NoDup (ids store) -> t ∈ store -> delivered_at (ins_task t) <> "" ->
  ins_task_id t ∉ undelivered store.
Proof.
  induction store as [|t0 store IH]; intros Hnd Ht Hdel; [set_solver|].
  simpl in Hnd. apply NoDup_cons in Hnd as [Hnt Hnd].
  rewrite undelivered_cons. apply elem_of_cons in Ht as [<-|Ht].
  - destruct (decide _); [done|]. intros Hin. now apply undelivered_subseteq in Hin.
  - assert (ins_task_id t ∈ ids store) by (unfold ids; set_solver).
    destruct (decide _); [|now apply IH].
    rewrite not_elem_of_cons. split; [congruence|now apply IH].
Qed.

(** The invariant of a sequence of calls: [returned] are the identifiers
    returned so far. *)
Lemma run_at_most_once ops : forall store used returned,
  fresh_ids ops used -> clock_set ops ->
  ids store ⊆ used -> NoDup (ids store) ->
  NoDup returned -> returned ⊆ ids store ->
  (forall id, id ∈ returned -> id ∉ undelivered store) ->
  NoDup (returned ++ ids (fst (run ops store))).
Proof.
  induction ops as [|[task_id task_ins|node_id limit now] ops IH];
    intros store used returned Hfresh Hclock Hused Hnd Hret Hsub Hdel; simpl.
  - now rewrite app_nil_r.
  - destruct Hfresh as [Hnew Hfresh]. unfold store_task_ins.
    destruct (is_valid_task (MsgTaskIns task_ins)); simpl.
    + apply (IH _ (task_id :: used)); try done.
      * rewrite ids_app. simpl. set_solver.
      * rewrite ids_app. simpl. apply NoDup_app. split; [done|].
        split; [|apply NoDup_singleton]. set_solver.
      * rewrite ids_app. set_solver.
      * intros id Hid. rewrite undelivered_app, not_elem_of_app. split; [auto|].
        rewrite undelivered_cons. simpl. set_solver.
    + apply (IH _ (task_id :: used)); try done. set_solver.
  - destruct Hclock as [Hnow Hclock]. unfold get_task_ins.
    destruct (get_task_ins_from store node_id (option_map Pos.to_nat limit) now)
      as [result store'] eqn:Hget.
    destruct (run ops store') as [results store''] eqn:Hrun. simpl.
    destruct (get_task_ins_from_spec _ _ _ _ _ _ Hget) as (Hi & Hr & Hu & Hs & _).
    pose proof (get_task_ins_from_delivered _ _ _ _ _ _ Hnow Hnd Hget) as Hgone.
    rewrite ids_app, app_assoc.
    replace results with (fst (run ops store')) by now rewrite Hrun.
    apply (IH _ used); try done.
    + now rewrite Hi.
    + now rewrite Hi.
    + apply NoDup_app. split; [done|]. split.
      * intros id Hid Hid'. apply (Hdel id Hid). now apply Hr.
      * exact (sublist_NoDup _ _ Hnd Hs).
    + rewrite Hi. pose proof (undelivered_subseteq store). set_solver.
    + intros id [Hid|Hid]%elem_of_app; [|now apply Hgone].
      intros Hin. apply (Hdel id Hid). now apply Hu.
Qed.

(** C5: every instruction [get_task_ins] returns has [delivered_at] set to
    the time of the call, in the result and in the store; an instruction
    whose [delivered_at] is already set is not returned; over any sequence of
    [store_task_ins] and [get_task_ins] calls from the empty store no
    instruction is returned twice; and a second identical call returns none
    of the instructions of the first. *)
Theorem get_task_ins_at_most_once :
  (forall store node_id limit now t,
     t ∈ fst (get_task_ins store node_id limit now) ->
     delivered_at (ins_task t) = now /\
     t ∈ snd (get_task_ins store node_id limit now)) /\
  (forall store node_id limit now t,
     NoDup (ids store) -> t ∈ store -> delivered_at (ins_task t) <> "" ->
     ins_task_id t ∉ ids (fst (get_task_ins store node_id limit now))) /\
  (forall ops,
     fresh_ids ops [] -> clock_set ops -> NoDup (ids (fst (run ops [])))) /\
  (forall store node_id limit now,
     NoDup (ids store) -> now <> "" ->
     forall t, t ∈ fst (get_task_ins store node_id limit now) ->
     ins_task_id t
       ∉ ids (fst (get_task_ins (snd (get_task_ins store node_id limit now))
                     node_id limit now))).
Proof.
  split; [|split; [|split]].
  - intros store node_id limit now t. unfold get_task_ins.
    destruct (get_task_ins_from _ _ _ _) as [result store'] eqn:Hget. simpl.
    destruct (get_task_ins_from_spec _ _ _ _ _ _ Hget) as (_ & _ & _ & _ & Hd).
    apply Hd.
  - intros store node_id limit now t Hnd Ht Hdel. unfold get_task_ins.
    destruct (get_task_ins_from _ _ _ _) as [result store'] eqn:Hget. simpl.
    destruct (get_task_ins_from_spec _ _ _ _ _ _ Hget) as (_ & Hr & _).
    intros Hin. apply Hr in Hin. revert Hin. now apply delivered_not_undelivered.
  - intros ops Hfresh Hclock.
    apply (run_at_most_once ops [] [] []); try done.
    + apply NoDup_nil_2.
    + apply NoDup_nil_2.
    + set_solver.
  - intros store node_id limit now Hnd Hnow t. unfold get_task_ins.
    destruct (get_task_ins_from store _ _ _) as [result store'] eqn:Hget. simpl.
    destruct (get_task_ins_from store' _ _ _) as [result' store''] eqn:Hget'. simpl.
    intros Ht Hin.
    destruct (get_task_ins_from_spec _ _ _ _ _ _ Hget') as (_ & Hr & _).
    apply Hr in Hin. revert Hin.
    eapply get_task_ins_from_delivered; eauto. unfold ids. set_solver.
Qed.

(** Scenario: an instruction for node 7 is stored, fetched once, and absent
    from the second fetch. *)
Definition ins_for_node_7 : TaskIns :=
  mkTaskIns "" "" 1 (mkTask None (mkNode 7 false) "" "" "" [] []).

Definition scenario : list Op :=
  [StoreTaskIns "id-1" ins_for_node_7;
   GetTaskIns (Some 7) None "2024-01-01T00:00:00";
   GetTaskIns (Some 7) None "2024-01-01T00:00:01"].

Example scenario_run :
  fst (run scenario []) =
  [mkTaskIns "id-1" "" 1
     (mkTask None (mkNode 7 false) "" "2024-01-01T00:00:00" "" [] [])].
Proof. reflexivity. Qed.

Lemma get_task_ins_at_most_once_witness : NoDup (ids (fst (run scenario []))).
Proof.
  destruct get_task_ins_at_most_once as (_ & _ & H & _). apply H.
  - simpl. split; [|exact I]. apply not_elem_of_nil.
  - simpl. repeat split; discriminate.
Defined.

End TaskStore.
